(** * Snake on a torus: a shallow embedding of [snake_game.py]

    The simulation core of the game is embedded as executable Rocq
    definitions: the grid constants, the toroidal head arithmetic, the
    [Snake] and [Apple] objects, key handling and the body of the main loop.
    Rendering, the clock and window management carry no game logic and are
    left out.

    Conventions.
    - A Python [int] is a [Z]; Python's [%] with a positive modulus is
      [Z.modulo] (both take the sign of the divisor).
    - A cell and a direction are both Python pairs of ints: [Z * Z].
    - A Python list of cells is a [list Cell]; [list.insert(0, x)] is [x :: l],
      [list.pop()] is [removelast], [l[1:]] is [tl l].
    - A Python exception ([IndexError] on [positions[0]] or on
      [random.choice] of an empty sequence) is [None] in the [option] monad.
    - [random.choice] is driven by an explicit number [rnd]: it returns the
      element at index [rnd mod len]. Every element can be chosen, and a
      property proved for all [rnd] holds for every behaviour of the
      generator. *)

From Stdlib Require Import ZArith List Bool Lia.
Import ListNotations.

#[local] Open Scope Z_scope.

(** ** The option monad used for code that can raise *)

Definition obind {A B : Type} (m : option A) (k : A -> option B) : option B :=
  match m with
  | Some a => k a
  | None => None
  end.

Notation "x <- m ;; k" := (obind m (fun x => k))
  (at level 61, m at next level, right associativity).
Notation "' p <- m ;; k" := (obind m (fun x => match x with p => k end))
  (at level 61, p pattern, m at next level, right associativity).

(** ** Module-level constants (lines 12-36) *)

Definition Cell : Type := (Z * Z)%type.

Definition CELL_SIZE : Z := 20.
Definition FIELD_WIDTH : Z := 32.
Definition FIELD_HEIGHT : Z := 24.
Definition SCREEN_WIDTH : Z := FIELD_WIDTH * CELL_SIZE.
Definition SCREEN_HEIGHT : Z := FIELD_HEIGHT * CELL_SIZE.

Definition UP : Cell := (0, - CELL_SIZE).
Definition DOWN : Cell := (0, CELL_SIZE).
Definition LEFT : Cell := (- CELL_SIZE, 0).
Definition RIGHT : Cell := (CELL_SIZE, 0).

(** Python's [range(n)]. *)
Definition range (n : Z) : list Z := map Z.of_nat (seq 0 (Z.to_nat n)).

(** [ALL_CELLS] is a Python set built by a double comprehension. It is listed
    here in comprehension order; the order of a Python set is unspecified, and
    nothing below depends on it. *)
Definition ALL_CELLS : list Cell :=
  flat_map
    (fun x => map (fun y => (x * CELL_SIZE, y * CELL_SIZE)) (range FIELD_HEIGHT))
    (range FIELD_WIDTH).

Definition CENTER_POSITION : Cell := (SCREEN_WIDTH / 2, SCREEN_HEIGHT / 2).

(** Equality of Python pairs of ints. *)
Definition cell_eqb (a b : Cell) : bool :=
  (fst a =? fst b) && (snd a =? snd b).

(** [c in l] for a list (or a set) of cells. *)
Definition cell_mem (c : Cell) (l : list Cell) : bool := existsb (cell_eqb c) l.

(** [d.get(k)] for a dict written as a literal: the first entry with an equal
    key, [None] when there is none. *)
Fixpoint dict_get {K V : Type} (eqb : K -> K -> bool) (d : list (K * V)) (k : K)
  : option V :=
  match d with
  | [] => None
  | (k', v) :: d' => if eqb k k' then Some v else dict_get eqb d' k
  end.

(** ** The toroidal head arithmetic

    The same two lines occur in [Snake.move] (162-164) and in [main]
    (297-299): the head is moved by the direction vector and wrapped on both
    axes. *)
Definition advance (head direction : Cell) : Cell :=
  let '(head_x, head_y) := head in
  let new_head_x := (head_x + fst direction) mod SCREEN_WIDTH in
  let new_head_y := (head_y + snd direction) mod SCREEN_HEIGHT in
  (new_head_x, new_head_y).

(** ** [random.choice] *)

Definition random_choice {A : Type} (rnd : nat) (l : list A) : option A :=
  match l with
  | [] => None
  | _ :: _ => nth_error l (Nat.modulo rnd (List.length l))
  end.

(** ** [Apple] (lines 76-111) *)

Record Apple : Type := mkApple {
  apple_position : Cell;
  occupied_positions : list Cell
}.

(** [tuple(ALL_CELLS - set(occupied))]. *)
Definition free_cells (occupied : list Cell) : list Cell :=
  filter (fun c => negb (cell_mem c occupied)) ALL_CELLS.

(** Lines 100-101: the list [randomize_position] works with is its argument,
    or the attribute when the argument is [None]. *)
Definition occupied_of (occupied : option (list Cell)) (a : Apple) : list Cell :=
  match occupied with
  | Some o => o
  | None => occupied_positions a
  end.

Definition randomize_position (rnd : nat) (occupied : option (list Cell))
    (a : Apple) : option Apple :=
  let occ := occupied_of occupied a in
  let free := free_cells occ in
  match free with
  | _ :: _ =>
      p <- random_choice rnd free ;;
      Some (mkApple p occ)
  | [] =>
      p <- random_choice rnd ALL_CELLS ;;
      Some (mkApple p occ)
  end.

(** [Apple(occupied_positions)]: the base constructor puts the apple at the
    centre, [occupied_positions or []] keeps the list, and the position is
    then randomised. *)
Definition Apple_init (rnd : nat) (occupied : list Cell) : option Apple :=
  randomize_position rnd None (mkApple CENTER_POSITION occupied).

(** ** [Snake] (lines 123-206) *)

Record Snake : Type := mkSnake {
  snake_position : Cell;
  length : Z;
  positions : list Cell;
  direction : Cell;
  next_direction : option Cell
}.

Definition set_length (n : Z) (s : Snake) : Snake :=
  mkSnake (snake_position s) n (positions s) (direction s) (next_direction s).
Definition set_positions (l : list Cell) (s : Snake) : Snake :=
  mkSnake (snake_position s) (length s) l (direction s) (next_direction s).
Definition set_direction (d : Cell) (s : Snake) : Snake :=
  mkSnake (snake_position s) (length s) (positions s) d (next_direction s).
Definition set_next_direction (d : option Cell) (s : Snake) : Snake :=
  mkSnake (snake_position s) (length s) (positions s) (direction s) d.

Definition Snake_init : Snake :=
  mkSnake CENTER_POSITION 1 [CENTER_POSITION] RIGHT None.

Definition opposite_directions : list (Cell * Cell) :=
  [ (UP, DOWN); (DOWN, UP); (LEFT, RIGHT); (RIGHT, LEFT) ].

(** [a != b] where [a] is a pair and [b] is a pair or [None]. *)
Definition differs (a : Cell) (b : option Cell) : bool :=
  match b with
  | Some b' => negb (cell_eqb a b')
  | None => true
  end.

Definition update_direction (s : Snake) : Snake :=
  match next_direction s with
  | Some nd =>
      let s1 :=
        if differs nd (dict_get cell_eqb opposite_directions (direction s))
        then set_direction nd s
        else s in
      set_next_direction None s1
  | None => s
  end.

(** [positions[0]]; raises on an empty list. *)
Definition get_head_position (s : Snake) : option Cell :=
  match positions s with
  | [] => None
  | h :: _ => Some h
  end.

(** The first half of [move] (lines 159-167): the new head is inserted at the
    front; [length] is not touched yet. *)
Definition insert_new_head (s : Snake) : option Snake :=
  head <- get_head_position s ;;
  let new_head := advance head (direction s) in
  Some (set_positions (new_head :: positions s) s).

Definition move (grow : bool) (s : Snake) : option Snake :=
  s1 <- insert_new_head s ;;
  if negb grow
  then Some (set_positions (removelast (positions s1)) s1)
  else Some (set_length (Z.of_nat (List.length (positions s1))) s1).

Definition check_self_collision (s : Snake) : option bool :=
  if length s <? 4 then Some false
  else
    head <- get_head_position s ;;
    Some (cell_mem head (tl (positions s))).

(** [Snake.reset] (lines 199-206). The main loop never calls it. *)
Definition reset (s : Snake) : Snake :=
  mkSnake CENTER_POSITION 1 [CENTER_POSITION] RIGHT None.

(** ** Keyboard handling (lines 226-260) *)

Inductive Key : Type := K_UP | K_DOWN | K_LEFT | K_RIGHT | K_ESCAPE | K_OTHER.

Inductive Event : Type :=
| QUIT
| KEYDOWN (key : Key)
| OTHER_EVENT.

Definition key_eqb (a b : Key) : bool :=
  match a, b with
  | K_UP, K_UP | K_DOWN, K_DOWN | K_LEFT, K_LEFT | K_RIGHT, K_RIGHT
  | K_ESCAPE, K_ESCAPE | K_OTHER, K_OTHER => true
  | _, _ => false
  end.

Definition direction_map : list ((Key * Cell) * Cell) :=
  [ ((K_UP, RIGHT), UP);
    ((K_UP, LEFT), UP);
    ((K_DOWN, RIGHT), DOWN);
    ((K_DOWN, LEFT), DOWN);
    ((K_LEFT, UP), LEFT);
    ((K_LEFT, DOWN), LEFT);
    ((K_RIGHT, UP), RIGHT);
    ((K_RIGHT, DOWN), RIGHT) ].

Definition key_dir_eqb (a b : Key * Cell) : bool :=
  key_eqb (fst a) (fst b) && cell_eqb (snd a) (snd b).

(** Returns the exit flag together with the (possibly updated) snake. *)
Definition handle_keys (event : Event) (snake : Snake) : bool * Snake :=
  match event with
  | KEYDOWN key =>
      if key_eqb key K_ESCAPE then (true, snake)
      else
        match dict_get key_dir_eqb direction_map (key, direction snake) with
        | Some new_direction =>
            (false, set_next_direction (Some new_direction) snake)
        | None => (false, snake)
        end
  | _ => (false, snake)
  end.

(** ** The main loop (lines 263-339) *)

(** The variables of [main] that live across iterations. The field
    [occupied_positions] of the apple records the list it was last given; in
    the program it is a reference to the snake's list, which is read only
    inside [randomize_position], right after it has been assigned. *)
Record Game : Type := mkGame {
  snake : Snake;
  apple : Apple;
  last_tail_position : option Cell;
  best_length : Z;
  running : bool
}.

(** Lines 272-279. *)
Definition main_init (rnd : nat) : option Game :=
  let snake := Snake_init in
  apple <- Apple_init rnd (positions snake) ;;
  Some (mkGame snake apple None 1 true).

(** Lines 282-286: the event loop of one iteration. *)
Fixpoint handle_events (events : list Event) (snake : Snake) (running : bool)
  : Snake * bool :=
  match events with
  | [] => (snake, running)
  | event :: rest =>
      let running1 := match event with QUIT => false | _ => running end in
      let '(esc, snake1) := handle_keys event snake in
      let running2 := if esc then false else running1 in
      handle_events rest snake1 running2
  end.

(** What one iteration of the loop did, next to the state it leaves. *)
Record Tick : Type := mkTick {
  after : Game;
  will_grow : bool;
  collided : bool
}.

(** Lines 304-316: the move, with the apple relocated on growth. The call
    [apple.randomize_position(snake.positions)] is the parameter [relocate],
    so that the same body can also be run with the outcome of [random.choice]
    fixed in advance; [loop_body] below passes [randomize_position]. *)
Definition move_phase (relocate : list Cell -> Apple -> option Apple)
    (will_grow : bool) (g : Game) (snake : Snake) (tail : option Cell)
  : option (Snake * Apple * option Cell * Z) :=
  if will_grow then
    snake1 <- move true snake ;;
    let best := if length snake1 >? best_length g
                then length snake1 else best_length g in
    apple1 <- relocate (positions snake1) (apple g) ;;
    Some (snake1, apple1, None, best)
  else
    snake1 <- move false snake ;;
    Some (snake1, apple g, tail, best_length g).

(** Lines 318-324: the self-collision check and the truncation to the head. *)
Definition collision_phase (snake : Snake) (tail : option Cell)
  : option (Snake * option Cell * bool) :=
  hit <- check_self_collision snake ;;
  if hit then
    head_pos <- get_head_position snake ;;
    Some (set_length 1 (set_positions [head_pos] snake), None, true)
  else Some (snake, tail, false).

(** Lines 281-324: one iteration of [while running]. *)
Definition loop_body_with (relocate : list Cell -> Apple -> option Apple)
    (events : list Event) (g : Game) : option Tick :=
  let '(snake0, running1) := handle_events events (snake g) (running g) in
  let snake1 := update_direction snake0 in
  let tail := match positions snake1 with
              | [] => last_tail_position g
              | _ :: _ => Some (last (positions snake1) (0, 0))
              end in
  head <- get_head_position snake1 ;;
  let next_head := advance head (direction snake1) in
  let will_grow := cell_eqb next_head (apple_position (apple g)) in
  '(snake2, apple2, tail2, best) <-
     move_phase relocate will_grow g snake1 tail ;;
  '(snake3, tail3, hit) <- collision_phase snake2 tail2 ;;
  Some (mkTick (mkGame snake3 apple2 tail3 best running1) will_grow hit).

Definition loop_body (events : list Event) (rnd : nat) (g : Game) : option Tick :=
  loop_body_with (fun occupied a => randomize_position rnd (Some occupied) a)
    events g.

(** The states of the main loop at the head of [while running]. *)
Inductive reachable : Game -> Prop :=
| reachable_init : forall rnd g,
    main_init rnd = Some g -> reachable g
| reachable_tick : forall g events rnd t,
    reachable g -> running g = true ->
    loop_body events rnd g = Some t -> reachable (after t).

(** ** Vocabulary of the statements *)

(** The four headings of the game. *)
Definition is_direction (d : Cell) : Prop :=
  d = UP \/ d = DOWN \/ d = LEFT \/ d = RIGHT.

(** The exact opposite of a heading: its negation as a vector. *)
Definition opposite (d : Cell) : Cell := (- fst d, - snd d).

(** A cell inside the field, in pixels. *)
Definition in_field (c : Cell) : Prop :=
  0 <= fst c < SCREEN_WIDTH /\ 0 <= snd c < SCREEN_HEIGHT.

(** Membership in [ALL_CELLS], decided by arithmetic. *)
Definition is_grid_cell (c : Cell) : bool :=
  (0 <=? fst c) && (fst c <? SCREEN_WIDTH) && (fst c mod CELL_SIZE =? 0) &&
  (0 <=? snd c) && (snd c <? SCREEN_HEIGHT) && (snd c mod CELL_SIZE =? 0).

(** Up, down, left, right in a row. *)
Definition round_trip4 (c : Cell) : Cell :=
  advance (advance (advance (advance c UP) DOWN) LEFT) RIGHT.

(** The assignment [snake.next_direction = d], repeated for a sequence. *)
Definition assign_pending (ds : list Cell) (s : Snake) : Snake :=
  fold_left (fun s d => set_next_direction (Some d) s) ds s.

(** The snake after the events and [update_direction], just before the
    look-ahead of line 296. *)
Definition steered (events : list Event) (g : Game) : Snake :=
  update_direction (fst (handle_events events (snake g) (running g))).

(** The invariant of the data model: [length] counts the segments. *)
Definition length_ok (s : Snake) : Prop :=
  length s = Z.of_nat (List.length (positions s)).

(** The two facts every iteration needs and leaves behind. *)
Definition snake_ok (s : Snake) : Prop :=
  length_ok s /\ positions s <> [].

(** The pending slot is empty or holds one of the four headings. *)
Definition pending_ok (s : Snake) : Prop :=
  match next_direction s with
  | None => True
  | Some d => is_direction d
  end.

(** The apple does not lie on the snake. *)
Definition apple_off_snake (g : Game) : Prop :=
  ~ In (apple_position (apple g)) (positions (snake g)).

(** A snake of five segments about to turn into its own body: its head is at
    (40, 20), it heads left, and (20, 20) is its fourth segment. *)
Definition bitten_game : Game :=
  mkGame
    (mkSnake CENTER_POSITION 5
       [(40, 20); (40, 40); (20, 40); (20, 20); (0, 20)] LEFT None)
    (mkApple (100, 100) []) None 5 true.

(** ** A run that fills the whole field

    The snake can be steered along a spiral that visits every cell of the
    torus once, while the apple keeps appearing right in front of its head:
    the first row is walked to the right from the centre, and every further
    row is entered by one step down and walked to the right again. *)

(** The apple is put at [pick]: one possible outcome of
    [randomize_position]. *)
Definition place_at (pick : Cell) (occupied : list Cell) (a : Apple)
  : option Apple :=
  Some (mkApple pick occupied).

(** [pick] is a possible outcome of [randomize_position] for [occupied]: a
    free cell, or any cell of the grid when no cell is free. *)
Definition pick_ok (pick : Cell) (occupied : list Cell) : bool :=
  if negb (is_grid_cell pick) then false
  else if negb (cell_mem pick occupied) then true
  else match free_cells occupied with
       | [] => true
       | _ :: _ => false
       end.

(** The [k]-th cell of the spiral; 32 cells per row, the centre first. *)
Definition path_cell (k : nat) : Cell :=
  let r := Z.of_nat (k / 32) in
  let j := Z.of_nat (k mod 32) in
  (((16 - r + j) mod FIELD_WIDTH) * CELL_SIZE,
   ((12 + r) mod FIELD_HEIGHT) * CELL_SIZE).

(** The key pressed before the step onto the [k]-th cell. *)
Definition path_events (k : nat) : list Event :=
  if (k <? 32)%nat then []
  else match (k mod 32)%nat with
       | O => [KEYDOWN K_DOWN]
       | S O => [KEYDOWN K_RIGHT]
       | _ => []
       end.

(** 767 iterations: the events of each and the place of the next apple. After
    the last one the field is full, and the apple is put on the first cell of
    the last row, which lies right in front of the head. *)
Definition spiral_plan : list (list Event * Cell) :=
  map (fun k => (path_events k,
                 if (k =? 767)%nat then path_cell 736 else path_cell (k + 1)))
      (seq 1 767).

(** Runs a plan, checking on the way that every iteration keeps the game
    running, ends without a collision, and places the apple where
    [randomize_position] could have placed it. *)
Fixpoint run_plan (plan : list (list Event * Cell)) (g : Game) : option Game :=
  match plan with
  | [] => Some g
  | (events, pick) :: rest =>
      if running g then
        t <- loop_body_with (place_at pick) events g ;;
        if collided t then None
        else if will_grow t then
          if pick_ok pick (positions (snake (after t)))
          then run_plan rest (after t)
          else None
        else run_plan rest (after t)
      else None
  end.

(** The game after [main]'s initialisation when the first apple lands on the
    cell to the right of the centre. *)
Definition spiral_start : Game :=
  mkGame Snake_init (mkApple (path_cell 1) [CENTER_POSITION]) None 1 true.


(** The first iteration from [spiral_start] without events, when
    [random.choice] returns the first free cell: the snake eats the apple and
    the new apple lands on (0, 0). *)
Definition first_tick : Tick :=
  mkTick
    (mkGame
       (mkSnake CENTER_POSITION 2 [(340, 240); (320, 240)] RIGHT None)
       (mkApple (0, 0) [(340, 240); (320, 240)]) None 2 true)
    true false.

(** ** Rendering (lines 55-65, 113-120, 208-223, 326-331)

    A surface is the colour of each of its pixels. [screen.fill] paints all
    of them, [pygame.draw.rect] those inside the rectangle. *)

Definition Color : Type := (Z * Z * Z)%type.

Definition BLACK : Color := (0, 0, 0).
Definition GREEN : Color := (0, 255, 0).
Definition RED : Color := (255, 0, 0).

Definition Surface : Type := Z * Z -> Color.

(** [pygame.Rect(left, top, width, height)]. *)
Definition Rect : Type := (Z * Z * Z * Z)%type.

Definition in_rect (rect : Rect) (pixel : Z * Z) : bool :=
  let '(rx, ry, width, height) := rect in
  (rx <=? fst pixel) && (fst pixel <? rx + width) &&
  (ry <=? snd pixel) && (snd pixel <? ry + height).

Definition fill (color : Color) : Surface := fun _ => color.

Definition draw_rect (screen : Surface) (color : Color) (rect : Rect) : Surface :=
  fun pixel => if in_rect rect pixel then color else screen pixel.

(** [GameObject.draw_cell] (lines 55-65). *)
Definition draw_cell (screen : Surface) (position : Cell) (color : Color)
  : Surface :=
  let rect := (fst position, snd position, CELL_SIZE, CELL_SIZE) in
  draw_rect screen color rect.

(** [Apple.draw] (lines 113-120); the apple's [body_color] is [RED]. *)
Definition Apple_draw (screen : Surface) (a : Apple) : Surface :=
  draw_cell screen (apple_position a) RED.

(** [Snake.draw] (lines 208-223); the snake's [body_color] is [GREEN]. *)
Definition Snake_draw (screen : Surface) (s : Snake)
    (last_tail_position : option Cell) : Surface :=
  let screen1 := match last_tail_position with
                 | Some tail => draw_cell screen tail BLACK
                 | None => screen
                 end in
  fold_left (fun scr position => draw_cell scr position GREEN)
    (positions s) screen1.

(** Lines 326-331: what an iteration of the main loop puts on the screen. *)
Definition render (g : Game) : Surface :=
  let screen := fill BLACK in
  let screen1 := Snake_draw screen (snake g) (last_tail_position g) in
  Apple_draw screen1 (apple g).

(** ** Further vocabulary *)

(** The pixel lies in the square of the cell. *)
Definition in_cell (c : Cell) (pixel : Z * Z) : bool :=
  in_rect (fst c, snd c, CELL_SIZE, CELL_SIZE) pixel.

(** Two headings at a right angle. *)
Definition perpendicular (d e : Cell) : Prop :=
  fst d * fst e + snd d * snd e = 0.

(** The event ends the game: the window was closed or Escape was pressed. *)
Definition stops (e : Event) : bool :=
  match e with
  | QUIT => true
  | KEYDOWN K_ESCAPE => true
  | _ => false
  end.

(** The heading an arrow key stands for. *)
Definition key_heading (key : Key) : option Cell :=
  match key with
  | K_UP => Some UP
  | K_DOWN => Some DOWN
  | K_LEFT => Some LEFT
  | K_RIGHT => Some RIGHT
  | _ => None
  end.

(** No cell occurs twice. *)
Fixpoint distinctb (l : list Cell) : bool :=
  match l with
  | [] => true
  | c :: l' => negb (cell_mem c l') && distinctb l'
  end.

(** Every segment but the last follows the one behind it: the second cell
    of the list, moved by the heading, is the first. *)
Definition neck_ok (s : Snake) : Prop :=
  match positions s with
  | h :: h2 :: _ => h = advance h2 (direction s)
  | _ => True
  end.

(** The pending slot is empty or holds a heading at a right angle to the
    current one. *)
Definition pending_turn (s : Snake) : Prop :=
  match next_direction s with
  | None => True
  | Some d => is_direction d /\ perpendicular d (direction s)
  end.

(** The segments are pairwise distinct cells of the grid, each following the
    next, and the snake heads in one of the four directions. *)
Definition body_ok (s : Snake) : Prop :=
  NoDup (positions s) /\
  Forall (fun c => In c ALL_CELLS) (positions s) /\
  neck_ok s /\
  is_direction (direction s).

(** * Properties *)

(** ** Cells, membership and the grid *)

Lemma cell_eqb_eq (a b : Cell) : cell_eqb a b = true <-> a = b.
Proof.
  destruct a as [ax ay], b as [bx by_]. unfold cell_eqb; simpl.
  rewrite andb_true_iff, !Z.eqb_eq. split.
  - intros [-> ->]; reflexivity.
  - intros E; inversion E; auto.
Qed.

Lemma cell_eqb_refl (a : Cell) : cell_eqb a a = true.
Proof. apply cell_eqb_eq; reflexivity. Qed.

Lemma cell_mem_In (c : Cell) (l : list Cell) : cell_mem c l = true <-> In c l.
Proof.
  unfold cell_mem. rewrite existsb_exists. split.
  - intros (x & Hx & E). apply cell_eqb_eq in E. now subst.
  - intros H. exists c. split; [assumption | apply cell_eqb_refl].
Qed.

Lemma cell_mem_false (c : Cell) (l : list Cell) :
  cell_mem c l = false <-> ~ In c l.
Proof.
  rewrite <- cell_mem_In. destruct (cell_mem c l); split; intros H.
  - discriminate H.
  - exfalso; apply H; reflexivity.
  - discriminate.
  - reflexivity.
Qed.

Lemma In_range (n x : Z) : In x (range n) <-> 0 <= x < n.
Proof.
  unfold range. rewrite in_map_iff. split.
  - intros (k & <- & Hk). apply in_seq in Hk. lia.
  - intros H. exists (Z.to_nat x). split; [lia |]. apply in_seq. lia.
Qed.

Lemma In_ALL_CELLS (c : Cell) : In c ALL_CELLS <-> is_grid_cell c = true.
Proof.
  destruct c as [x y]. unfold ALL_CELLS, is_grid_cell. simpl fst; simpl snd.
  rewrite in_flat_map. rewrite !andb_true_iff.
  rewrite !Z.leb_le, !Z.ltb_lt, !Z.eqb_eq.
  unfold SCREEN_WIDTH, SCREEN_HEIGHT, FIELD_WIDTH, FIELD_HEIGHT, CELL_SIZE.
  split.
  - intros (i & Hi & Hc). apply in_map_iff in Hc. destruct Hc as (j & E & Hj).
    apply In_range in Hi. apply In_range in Hj. inversion E; subst.
    rewrite !Z.mod_mul by lia. lia.
  - intros [[[[[Hx0 Hx1] Hxm] Hy0] Hy1] Hym].
    exists (x / 20). split.
    + apply In_range. split; [apply Z.div_pos; lia |].
      apply Z.div_lt_upper_bound; lia.
    + apply in_map_iff. exists (y / 20). split.
      * f_equal.
        -- pose proof (Z.div_mod x 20). lia.
        -- pose proof (Z.div_mod y 20). lia.
      * apply In_range. split; [apply Z.div_pos; lia |].
        apply Z.div_lt_upper_bound; lia.
Qed.

Lemma In_free_cells (c : Cell) (occupied : list Cell) :
  In c (free_cells occupied) <-> In c ALL_CELLS /\ ~ In c occupied.
Proof.
  unfold free_cells. rewrite filter_In, negb_true_iff, cell_mem_false.
  reflexivity.
Qed.

(** ** The torus *)

Ltac field_arith :=
  unfold in_field, SCREEN_WIDTH, SCREEN_HEIGHT, FIELD_WIDTH, FIELD_HEIGHT,
    CELL_SIZE; simpl; lia.

Section Torus.

Lemma wrap_back (m x a : Z) :
  0 <= x < m -> ((x + a) mod m + - a) mod m = x.
Proof.
  intros H. rewrite Zplus_mod_idemp_l.
  replace (x + a + - a) with x by lia. apply Z.mod_small; exact H.
Qed.

Lemma advance_opposite (c d : Cell) :
  in_field c -> advance (advance c d) (opposite d) = c.
Proof.
  destruct c as [x y], d as [dx dy]. unfold in_field, advance, opposite.
  simpl. intros [Hx Hy]. now rewrite !wrap_back.
Qed.

Lemma advance_in_field (c d : Cell) : in_field (advance c d).
Proof.
  destruct c as [x y]. unfold in_field, advance. simpl.
  split; apply Z.mod_pos_bound; reflexivity.
Qed.

Lemma opposite_table (d : Cell) :
  is_direction d ->
  dict_get cell_eqb opposite_directions d = Some (opposite d).
Proof. intros [-> | [-> | [-> | ->]]]; reflexivity. Qed.

Lemma opposite_differs (d : Cell) : is_direction d -> opposite d <> d.
Proof. intros [-> | [-> | [-> | ->]]]; discriminate. Qed.

End Torus.

(** C8. A step in one of the four directions followed by a step in the
    opposite direction, as the table [opposite_directions] of the program
    gives it, leads back to the cell one started from, for every cell inside
    the field. *)
Theorem advance_then_opposite (c d : Cell) :
  in_field c -> is_direction d ->
  exists d', dict_get cell_eqb opposite_directions d = Some d' /\
             d' = opposite d /\
             advance (advance c d) d' = c.
Proof.
  intros Hc Hd. exists (opposite d). split; [| split].
  - apply opposite_table; exact Hd.
  - reflexivity.
  - apply advance_opposite; exact Hc.
Qed.

Lemma advance_then_opposite_witness :
  in_field (0, 460) /\ is_direction DOWN /\
  exists d', dict_get cell_eqb opposite_directions DOWN = Some d' /\
             d' = opposite DOWN /\
             advance (advance (0, 460) DOWN) d' = (0, 460).
Proof.
  assert (Hc : in_field (0, 460)) by field_arith.
  assert (Hd : is_direction DOWN) by (right; left; reflexivity).
  split; [exact Hc | split; [exact Hd |]].
  exact (advance_then_opposite (0, 460) DOWN Hc Hd).
Defined.

(** C7, as the code has it. Up, down, left and right in a row lead back to the
    starting cell from every cell inside the field, the cells on the border
    included: the wrap on each axis is undone by the opposite step. *)
Theorem round_trip4_identity (c : Cell) : in_field c -> round_trip4 c = c.
Proof.
  intros Hc. unfold round_trip4.
  change DOWN with (opposite UP). rewrite (advance_opposite c UP Hc).
  change RIGHT with (opposite LEFT). exact (advance_opposite c LEFT Hc).
Qed.

Lemma round_trip4_identity_witness :
  in_field (0, 0) /\ round_trip4 (0, 0) = (0, 0).
Proof.
  assert (Hc : in_field (0, 0)) by field_arith.
  split; [exact Hc | exact (round_trip4_identity (0, 0) Hc)].
Defined.

(** C7, as stated, does not hold: no cell of the grid is moved by the
    four-step round trip. *)
Lemma round_trip4_no_moved_cell :
  ~ (exists c : Cell,
        in_field c /\ fst c mod CELL_SIZE = 0 /\ snd c mod CELL_SIZE = 0 /\
        round_trip4 c <> c).
Proof.
  intros (c & Hc & _ & _ & Hne). apply Hne.
  unfold round_trip4.
  change DOWN with (opposite UP). rewrite (advance_opposite c UP Hc).
  change RIGHT with (opposite LEFT). exact (advance_opposite c LEFT Hc).
Qed.

(** ** The snake *)

Section SnakeOps.

Variable s : Snake.

Lemma insert_new_head_cons (h : Cell) (t : list Cell) :
  positions s = h :: t ->
  insert_new_head s =
    Some (set_positions (advance h (direction s) :: positions s) s).
Proof.
  intros E. unfold insert_new_head, get_head_position. rewrite E.
  reflexivity.
Qed.

(** Between the insertion of the new head and the end of [move] the list is
    one longer than [length] says. *)
Lemma insert_new_head_transient (s1 : Snake) :
  length_ok s -> insert_new_head s = Some s1 ->
  Z.of_nat (List.length (positions s1)) = length s1 + 1.
Proof.
  unfold length_ok, insert_new_head, get_head_position.
  destruct (positions s) as [| h t] eqn:E; simpl; [discriminate |].
  intros L [= <-]. cbn [positions set_positions length]. rewrite L.
  simpl List.length. lia.
Qed.

Lemma move_fails_on_empty (grow : bool) :
  positions s = [] -> move grow s = None.
Proof.
  intros E. unfold move, insert_new_head, get_head_position.
  rewrite E. reflexivity.
Qed.

Lemma assign_pending_frame (ds : list Cell) :
  direction (assign_pending ds s) = direction s /\
  positions (assign_pending ds s) = positions s /\
  length (assign_pending ds s) = length s.
Proof.
  unfold assign_pending. generalize s as s0.
  induction ds as [| d ds IH]; intros s0; simpl; [auto |].
  destruct (IH (set_next_direction (Some d) s0)) as (A & B & C).
  rewrite A, B, C. auto.
Qed.

Lemma assign_pending_last (ds : list Cell) (d : Cell) :
  next_direction (assign_pending (ds ++ [d]) s) = Some d.
Proof.
  unfold assign_pending. rewrite fold_left_app. reflexivity.
Qed.

Lemma update_direction_frame :
  positions (update_direction s) = positions s /\
  length (update_direction s) = length s /\
  next_direction (update_direction s) = None.
Proof.
  unfold update_direction.
  destruct (next_direction s) as [nd |] eqn:E; [| auto].
  destruct (differs nd _); simpl; auto.
Qed.

Lemma update_direction_cases :
  is_direction (direction s) ->
  match next_direction s with
  | None => direction (update_direction s) = direction s
  | Some nd =>
      if cell_eqb nd (opposite (direction s))
      then direction (update_direction s) = direction s
      else direction (update_direction s) = nd
  end.
Proof.
  intros Hd. unfold update_direction.
  destruct (next_direction s) as [nd |]; [| reflexivity].
  rewrite (opposite_table _ Hd). unfold differs.
  destruct (cell_eqb nd (opposite (direction s))); reflexivity.
Qed.

End SnakeOps.

(** The two outcomes of [move] on a snake that has a head and whose
    [length] counts its segments, for use in the proofs about the main
    loop. *)
Lemma move_cases (s : Snake) (h : Cell) (t : list Cell) :
  length_ok s -> positions s = h :: t ->
  let new_head := ((fst h + fst (direction s)) mod SCREEN_WIDTH,
                   (snd h + snd (direction s)) mod SCREEN_HEIGHT) in
  (exists s1, move true s = Some s1 /\
              positions s1 = new_head :: positions s /\
              length s1 = length s + 1 /\
              get_head_position s1 = Some new_head /\
              length_ok s1) /\
  (exists s2, move false s = Some s2 /\
              length s2 = length s /\
              positions s2 ++ [last (positions s) h] = new_head :: positions s /\
              get_head_position s2 = Some new_head /\
              length_ok s2).
Proof.
  intros L E new_head.
  assert (A : advance h (direction s) = new_head) by (destruct h; reflexivity).
  unfold move. rewrite (insert_new_head_cons s h t E), A. simpl obind.
  unfold length_ok in *. split.
  - eexists. split; [reflexivity |]. simpl.
    rewrite L, E. simpl List.length. repeat split; lia.
  - exists (set_positions (new_head :: removelast (h :: t)) s).
    split; [rewrite E; reflexivity |].
    cbn [positions set_positions length get_head_position].
    rewrite E. repeat split.
    + rewrite <- app_comm_cons. f_equal. symmetry.
      apply app_removelast_last. discriminate.
    + rewrite L, E. f_equal.
      pose proof (app_removelast_last h (l := h :: t)) as P.
      assert (N : h :: t <> []) by discriminate.
      apply P in N. apply (f_equal (@List.length Cell)) in N.
      rewrite length_app in N. simpl List.length in *. lia.
Qed.

(** C1. On a snake with at least one segment whose [length] counts its
    segments, [move(grow=True)] puts exactly one new cell in front of the old
    list and makes [length] one larger; [move(grow=False)] leaves [length] as
    it was and drops the last segment; in both cases the new first cell is the
    old head moved by the direction and wrapped on both axes. *)
Theorem move_spec (s : Snake) (h : Cell) (t : list Cell) :
  length_ok s -> positions s = h :: t ->
  let new_head := ((fst h + fst (direction s)) mod SCREEN_WIDTH,
                   (snd h + snd (direction s)) mod SCREEN_HEIGHT) in
  (exists s1, move true s = Some s1 /\
              positions s1 = new_head :: positions s /\
              length s1 = length s + 1 /\
              get_head_position s1 = Some new_head /\
              length_ok s1) /\
  (exists s2, move false s = Some s2 /\
              length s2 = length s /\
              positions s2 ++ [last (positions s) h] = new_head :: positions s /\
              get_head_position s2 = Some new_head /\
              length_ok s2).
Proof.
  intros L E new_head.
  assert (A : advance h (direction s) = new_head) by (destruct h; reflexivity).
  unfold move. rewrite (insert_new_head_cons s h t E), A. simpl obind.
  unfold length_ok in *. split.
  - eexists. split; [reflexivity |]. simpl.
    rewrite L, E. simpl List.length. repeat split; lia.
  - exists (set_positions (new_head :: removelast (h :: t)) s).
    split; [rewrite E; reflexivity |].
    cbn [positions set_positions length get_head_position].
    rewrite E. repeat split.
    + rewrite <- app_comm_cons. f_equal. symmetry.
      apply app_removelast_last. discriminate.
    + rewrite L, E. f_equal.
      pose proof (app_removelast_last h (l := h :: t)) as P.
      assert (N : h :: t <> []) by discriminate.
      apply P in N. apply (f_equal (@List.length Cell)) in N.
      rewrite length_app in N. simpl List.length in *. lia.
Qed.

Lemma move_spec_witness :
  length_ok Snake_init /\ positions Snake_init = [CENTER_POSITION] /\
  (exists s1, move true Snake_init = Some s1 /\
              positions s1 = (340, 240) :: positions Snake_init /\
              length s1 = length Snake_init + 1 /\
              get_head_position s1 = Some (340, 240) /\
              length_ok s1) /\
  (exists s2, move false Snake_init = Some s2 /\
              length s2 = length Snake_init /\
              positions s2 ++ [last (positions Snake_init) CENTER_POSITION] =
                (340, 240) :: positions Snake_init /\
              get_head_position s2 = Some (340, 240) /\
              length_ok s2).
Proof.
  assert (L : length_ok Snake_init) by reflexivity.
  assert (E : positions Snake_init = [CENTER_POSITION]) by reflexivity.
  split; [exact L | split; [exact E |]].
  exact (move_spec Snake_init CENTER_POSITION [] L E).
Defined.

(** C2. Whatever was assigned to the pending slot, and however often, one call
    of [update_direction] on a snake heading in one of the four directions
    never turns it to the exact opposite of its heading; the pending slot is
    empty after the call, also when the request was a reversal, and then the
    heading is the old one. A request that is not a reversal is taken. *)
Theorem update_direction_no_reversal (s : Snake) (ds : list Cell) :
  is_direction (direction s) ->
  let s1 := assign_pending ds s in
  let s2 := update_direction s1 in
  direction s1 = direction s /\
  direction s2 <> opposite (direction s1) /\
  next_direction s2 = None /\
  (next_direction s1 = Some (opposite (direction s1)) ->
   direction s2 = direction s1) /\
  (forall d, next_direction s1 = Some d -> d <> opposite (direction s1) ->
             direction s2 = d).
Proof.
  intros Hd s1 s2.
  destruct (assign_pending_frame s ds) as (D & _ & _). fold s1 in D.
  assert (Hd1 : is_direction (direction s1)) by (rewrite D; exact Hd).
  pose proof (update_direction_cases s1 Hd1) as C. fold s2 in C.
  destruct (update_direction_frame s1) as (_ & _ & N). fold s2 in N.
  pose proof (opposite_differs _ Hd1) as O.
  split; [exact D | split; [| split; [exact N | split]]].
  - destruct (next_direction s1) as [nd |].
    + destruct (cell_eqb nd (opposite (direction s1))) eqn:Q.
      * rewrite C. congruence.
      * rewrite C. intros ->. rewrite cell_eqb_refl in Q. discriminate.
    + rewrite C. congruence.
  - intros P. rewrite P in C. rewrite cell_eqb_refl in C. exact C.
  - intros d P Q. rewrite P in C.
    destruct (cell_eqb d (opposite (direction s1))) eqn:R; [| exact C].
    apply cell_eqb_eq in R. contradiction.
Qed.

Lemma update_direction_no_reversal_witness :
  is_direction (direction Snake_init) /\
  direction (update_direction (assign_pending [UP; LEFT] Snake_init)) = RIGHT /\
  next_direction (update_direction (assign_pending [UP; LEFT] Snake_init))
    = None.
Proof.
  assert (Hd : is_direction (direction Snake_init))
    by (right; right; right; reflexivity).
  split; [exact Hd |].
  destruct (update_direction_no_reversal Snake_init [UP; LEFT] Hd)
    as (_ & _ & N & R & _).
  split; [apply R; reflexivity | exact N].
Defined.

(** C3. [check_self_collision] answers [False] whenever [length] is below 4,
    whatever the list holds; from 4 on it answers [True] exactly when the list
    has a head that occurs again among the cells after it, and on every list
    that has a head it does answer, with the result of that membership
    test. *)
Theorem check_self_collision_spec (s : Snake) :
  (length s < 4 -> check_self_collision s = Some false) /\
  (4 <= length s ->
   (check_self_collision s = Some true <->
    exists h t, positions s = h :: t /\ In h t)) /\
  (4 <= length s -> forall h t, positions s = h :: t ->
   check_self_collision s = Some (cell_mem h (tl (positions s)))).
Proof.
  unfold check_self_collision, get_head_position.
  split; [| split].
  - intros H. apply Z.ltb_lt in H. rewrite H. reflexivity.
  - intros H. apply Z.ltb_ge in H. rewrite H. split.
    + intros E.
      destruct (positions s) as [| h t]; simpl in E; [discriminate |].
      exists h, t. split; [reflexivity |].
      apply cell_mem_In. congruence.
    + intros (h & t & E & I). rewrite E. simpl.
      apply cell_mem_In in I. rewrite I. reflexivity.
  - intros H h t E. apply Z.ltb_ge in H. rewrite H, E. reflexivity.
Qed.

Lemma check_self_collision_spec_witness :
  check_self_collision
    (mkSnake CENTER_POSITION 5
       [(20, 20); (40, 20); (40, 40); (20, 40); (20, 20)] LEFT None)
  = Some true /\
  check_self_collision
    (mkSnake CENTER_POSITION 3 [(20, 20); (40, 20); (20, 20)] LEFT None)
  = Some false.
Proof.
  split.
  - apply (proj1 (proj2 (check_self_collision_spec _))).
    + simpl; lia.
    + exists (20, 20), [(40, 20); (40, 40); (20, 40); (20, 20)].
      split; [reflexivity | simpl; auto].
  - apply (proj1 (check_self_collision_spec _)). simpl; lia.
Defined.

(** ** The apple *)

Section Choice.

Context {A : Type}.

Lemma random_choice_In (rnd : nat) (l : list A) :
  l <> [] -> exists x, random_choice rnd l = Some x /\ In x l.
Proof.
  destruct l as [| a l]; [congruence | intros _].
  unfold random_choice.
  destruct (nth_error (a :: l) (Nat.modulo rnd (List.length (a :: l))))
    as [x |] eqn:E.
  - exists x. split; [reflexivity |]. eapply nth_error_In; exact E.
  - apply nth_error_None in E.
    pose proof (Nat.mod_upper_bound rnd (List.length (a :: l))) as B.
    simpl List.length in *. lia.
Qed.

(** Every element of the sequence is a possible outcome. *)
Lemma random_choice_onto (l : list A) (x : A) :
  In x l -> exists rnd, random_choice rnd l = Some x.
Proof.
  intros I. destruct (In_nth_error l x I) as [n E]. exists n.
  assert (n < List.length l)%nat as B
    by (apply nth_error_Some; congruence).
  unfold random_choice. destruct l as [| a l]; [destruct I |].
  rewrite Nat.mod_small by exact B. exact E.
Qed.

End Choice.

Lemma ALL_CELLS_nonempty : ALL_CELLS <> [].
Proof.
  assert (I : In (0, 0) ALL_CELLS) by (apply In_ALL_CELLS; reflexivity).
  intros E. rewrite E in I. destruct I.
Qed.

(** C4. When some cell of the grid is not occupied, [randomize_position]
    returns, for every outcome of the random choice, and the apple is then on
    a cell of [ALL_CELLS] that is not occupied. *)
Theorem randomize_position_free (rnd : nat) (occupied : option (list Cell))
    (a : Apple) :
  (exists c, In c ALL_CELLS /\ ~ In c (occupied_of occupied a)) ->
  exists a', randomize_position rnd occupied a = Some a' /\
             In (apple_position a') (free_cells (occupied_of occupied a)) /\
             In (apple_position a') ALL_CELLS /\
             ~ In (apple_position a') (occupied_of occupied a).
Proof.
  intros (c & Hc & Hn). unfold randomize_position.
  set (occ := occupied_of occupied a) in *.
  assert (I : In c (free_cells occ)) by (apply In_free_cells; auto).
  destruct (free_cells occ) as [| f fs] eqn:F; [destruct I |].
  destruct (random_choice_In rnd (f :: fs)) as (x & E & Hx); [discriminate |].
  rewrite E. simpl. eexists. split; [reflexivity |]. simpl.
  split; [exact Hx |]. rewrite <- F in Hx. apply In_free_cells in Hx.
  exact Hx.
Qed.

Lemma randomize_position_free_witness :
  (exists c, In c ALL_CELLS /\ ~ In c [CENTER_POSITION]) /\
  exists a', randomize_position 5 (Some [CENTER_POSITION])
               (mkApple CENTER_POSITION []) = Some a' /\
             In (apple_position a') (free_cells [CENTER_POSITION]) /\
             In (apple_position a') ALL_CELLS /\
             ~ In (apple_position a') [CENTER_POSITION].
Proof.
  assert (H : exists c, In c ALL_CELLS /\ ~ In c [CENTER_POSITION]).
  { exists (0, 0). split.
    - apply In_ALL_CELLS. reflexivity.
    - simpl. intros [E | []]. discriminate E. }
  split; [exact H |].
  exact (randomize_position_free 5 (Some [CENTER_POSITION])
           (mkApple CENTER_POSITION []) H).
Defined.

(** C9. When every cell of the grid is occupied, [randomize_position] still
    returns: the apple is put on some cell of [ALL_CELLS], which is then an
    occupied one. *)
Theorem randomize_position_full (rnd : nat) (occupied : option (list Cell))
    (a : Apple) :
  (forall c, In c ALL_CELLS -> In c (occupied_of occupied a)) ->
  exists a', randomize_position rnd occupied a = Some a' /\
             In (apple_position a') ALL_CELLS /\
             In (apple_position a') (occupied_of occupied a).
Proof.
  intros Hall. unfold randomize_position.
  set (occ := occupied_of occupied a) in *.
  destruct (free_cells occ) as [| f fs] eqn:F.
  - destruct (random_choice_In rnd ALL_CELLS ALL_CELLS_nonempty)
      as (x & E & Hx).
    rewrite E. simpl. eexists. split; [reflexivity |]. simpl. auto.
  - exfalso. assert (I : In f (free_cells occ)) by (rewrite F; left; auto).
    apply In_free_cells in I. destruct I as [I1 I2]. auto.
Qed.

Lemma randomize_position_full_witness :
  (forall c, In c ALL_CELLS -> In c ALL_CELLS) /\
  exists a', randomize_position 7 (Some ALL_CELLS)
               (mkApple CENTER_POSITION []) = Some a' /\
             In (apple_position a') ALL_CELLS /\
             In (apple_position a') ALL_CELLS.
Proof.
  split; [exact (fun c H => H) |].
  exact (randomize_position_full 7 (Some ALL_CELLS)
           (mkApple CENTER_POSITION []) (fun c H => H)).
Defined.

(** ** One iteration of the main loop *)

Lemma handle_keys_frame (event : Event) (s : Snake) :
  positions (snd (handle_keys event s)) = positions s /\
  length (snd (handle_keys event s)) = length s /\
  direction (snd (handle_keys event s)) = direction s.
Proof.
  unfold handle_keys. destruct event as [| key |]; [now simpl | | now simpl].
  destruct (key_eqb key K_ESCAPE); [now simpl |].
  destruct (dict_get key_dir_eqb direction_map (key, direction s));
    now simpl.
Qed.

Lemma handle_events_frame (events : list Event) (s : Snake) (r : bool) :
  positions (fst (handle_events events s r)) = positions s /\
  length (fst (handle_events events s r)) = length s /\
  direction (fst (handle_events events s r)) = direction s.
Proof.
  revert s r. induction events as [| e es IH]; intros s r; simpl; [auto |].
  destruct (handle_keys_frame e s) as (P & L & D).
  destruct (handle_keys e s) as [esc s1]. simpl in P, L, D.
  destruct (IH s1 (if esc then false
                   else match e with QUIT => false | _ => r end))
    as (P' & L' & D').
  rewrite P', L', D'. auto.
Qed.

Lemma steered_frame (events : list Event) (g : Game) :
  positions (steered events g) = positions (snake g) /\
  length (steered events g) = length (snake g).
Proof.
  unfold steered.
  destruct (update_direction_frame
              (fst (handle_events events (snake g) (running g))))
    as (P & L & _).
  destruct (handle_events_frame events (snake g) (running g)) as (P' & L' & _).
  rewrite P, L, P', L'. auto.
Qed.

(** What a successful iteration did, step by step. *)
Lemma loop_body_with_inv (relocate : list Cell -> Apple -> option Apple)
    (events : list Event) (g : Game) (t : Tick) :
  loop_body_with relocate events g = Some t ->
  exists h rest moved head_pos,
    positions (steered events g) = h :: rest /\
    will_grow t = cell_eqb (advance h (direction (steered events g)))
                           (apple_position (apple g)) /\
    move (will_grow t) (steered events g) = Some moved /\
    (if will_grow t
     then relocate (positions moved) (apple g) = Some (apple (after t))
     else apple (after t) = apple g) /\
    check_self_collision moved = Some (collided t) /\
    get_head_position moved = Some head_pos /\
    snake (after t) =
      (if collided t then set_length 1 (set_positions [head_pos] moved)
       else moved) /\
    (collided t = true -> last_tail_position (after t) = None) /\
    running (after t) = snd (handle_events events (snake g) (running g)).
Proof.
  unfold loop_body_with, steered.
  destruct (handle_events events (snake g) (running g)) as [s0 r1].
  cbn [fst snd]. unfold get_head_position at 1.
  destruct (positions (update_direction s0)) as [| h rest] eqn:P;
    [discriminate |].
  cbn [obind].
  set (wg := cell_eqb (advance h (direction (update_direction s0)))
                      (apple_position (apple g))).
  unfold move_phase.
  assert (M : exists moved head_pos,
             move wg (update_direction s0) = Some moved /\
             get_head_position moved = Some head_pos).
  { unfold move. rewrite (insert_new_head_cons _ h rest P). cbn [obind].
    destruct wg; cbn [negb]; eexists; eexists; (split; [reflexivity |]);
      unfold get_head_position; cbn [positions set_positions];
      rewrite ?P; reflexivity. }
  destruct M as (moved & head_pos & M & HP).
  destruct wg eqn:W; rewrite M; cbn [obind].
  - destruct (relocate (positions moved) (apple g)) as [a2 |] eqn:R;
      [| discriminate].
    cbn [obind]. unfold collision_phase.
    destruct (check_self_collision moved) as [[|] |] eqn:C; [| | discriminate];
      cbn [obind]; try rewrite HP; cbn [obind]; intros [= <-];
      exists h, rest, moved, head_pos; cbn; repeat split; auto; discriminate.
  - unfold collision_phase.
    destruct (check_self_collision moved) as [[|] |] eqn:C; [| | discriminate];
      cbn [obind]; try rewrite HP; cbn [obind]; intros [= <-];
      exists h, rest, moved, head_pos; cbn; repeat split; auto; discriminate.
Qed.

(** C6. When the collision check of an iteration answers [True], the snake is
    cut down to one segment, the head it had when the check was made, and
    [length] becomes 1; the heading and the pending slot are those the snake
    had before the cut, and no tail is left to erase. *)
Theorem collision_keeps_head_and_heading
    (events : list Event) (rnd : nat) (g : Game) (t : Tick) :
  loop_body events rnd g = Some t -> collided t = true ->
  exists moved head_pos,
    move (will_grow t) (steered events g) = Some moved /\
    check_self_collision moved = Some true /\
    get_head_position moved = Some head_pos /\
    positions (snake (after t)) = [head_pos] /\
    length (snake (after t)) = 1 /\
    direction (snake (after t)) = direction moved /\
    next_direction (snake (after t)) = next_direction moved /\
    last_tail_position (after t) = None.
Proof.
  intros B C. unfold loop_body in B.
  destruct (loop_body_with_inv _ _ _ _ B)
    as (h & rest & moved & head_pos & _ & _ & M & _ & K & HP & S & T & _).
  rewrite C in K, S. exists moved, head_pos. rewrite S. cbn.
  repeat split; auto.
Qed.

Lemma collision_keeps_head_and_heading_witness :
  exists t,
    loop_body [] 0 bitten_game = Some t /\ collided t = true /\
    positions (snake (after t)) = [(20, 20)] /\
    length (snake (after t)) = 1 /\
    direction (snake (after t)) = LEFT /\
    next_direction (snake (after t)) = None.
Proof.
  set (g := bitten_game).
  destruct (loop_body [] 0 g) as [t |] eqn:B; [| discriminate B].
  assert (C : collided t = true) by (injection B as <-; reflexivity).
  exists t. split; [reflexivity | split; [exact C |]].
  destruct (collision_keeps_head_and_heading [] 0%nat g t B C)
    as (moved & head_pos & M & _ & HP & P & L & D & N & _).
  rewrite P, L, D, N.
  assert (M' : moved =
    mkSnake CENTER_POSITION 5
      [(20, 20); (40, 20); (40, 40); (20, 40); (20, 20)] LEFT None).
  { destruct (will_grow t) eqn:W.
    - injection B as <-. discriminate W.
    - injection M as <-. reflexivity. }
  rewrite M' in HP |- *. injection HP as <-. repeat split.
Defined.

(** ** Invariants of the main loop *)

Lemma randomize_position_total (rnd : nat) (occupied : option (list Cell))
    (a : Apple) :
  exists a', randomize_position rnd occupied a = Some a' /\
             occupied_positions a' = occupied_of occupied a /\
             In (apple_position a') ALL_CELLS /\
             (free_cells (occupied_of occupied a) <> [] ->
              ~ In (apple_position a') (occupied_of occupied a)).
Proof.
  unfold randomize_position. set (occ := occupied_of occupied a).
  destruct (free_cells occ) as [| f fs] eqn:F.
  - destruct (random_choice_In rnd ALL_CELLS ALL_CELLS_nonempty)
      as (x & E & Hx).
    rewrite E. cbn. eexists. split; [reflexivity |]. cbn. tauto.
  - destruct (random_choice_In rnd (f :: fs)) as (x & E & Hx); [discriminate |].
    rewrite E. cbn. eexists. split; [reflexivity |]. cbn.
    rewrite <- F in Hx. apply In_free_cells in Hx. tauto.
Qed.

Lemma main_init_spec (rnd : nat) (g : Game) :
  main_init rnd = Some g ->
  snake g = Snake_init /\ running g = true /\ apple_off_snake g.
Proof.
  unfold main_init, Apple_init.
  destruct (randomize_position_total rnd None
              (mkApple CENTER_POSITION (positions Snake_init)))
    as (a' & E & _ & _ & Hfree).
  rewrite E. cbn [obind]. intros [= <-]. cbn [snake running].
  repeat split. unfold apple_off_snake. cbn [apple snake].
  apply Hfree. cbn [occupied_of occupied_positions].
  assert (I : In (0, 0) (free_cells (positions Snake_init))).
  { apply In_free_cells. split; [apply In_ALL_CELLS; reflexivity |].
    simpl. intros [Q | []]. discriminate Q. }
  intros Q. rewrite Q in I. destruct I.
Qed.

Lemma main_init_total (rnd : nat) : exists g, main_init rnd = Some g.
Proof.
  unfold main_init, Apple_init.
  destruct (randomize_position_total rnd None
              (mkApple CENTER_POSITION (positions Snake_init)))
    as (a' & E & _).
  rewrite E. cbn [obind]. eexists; reflexivity.
Qed.

Lemma loop_body_with_keeps_snake_ok
    (relocate : list Cell -> Apple -> option Apple)
    (events : list Event) (g : Game) (t : Tick) :
  loop_body_with relocate events g = Some t ->
  length_ok (snake g) -> snake_ok (snake (after t)).
Proof.
  intros B L.
  destruct (loop_body_with_inv _ _ _ _ B)
    as (h & rest & moved & head_pos & P & _ & M & _ & _ & HP & S & _).
  destruct (steered_frame events g) as (FP & FL).
  assert (L1 : length_ok (steered events g))
    by (unfold length_ok; rewrite FP, FL; exact L).
  destruct (move_cases _ h rest L1 P)
    as ((s1 & M1 & P1 & _ & _ & K1) & (s2 & M2 & _ & _ & H2 & K2)).
  rewrite S. destruct (collided t).
  - split; [reflexivity | discriminate].
  - destruct (will_grow t).
    + rewrite M1 in M. injection M as <-. split; [exact K1 |].
      rewrite P1. discriminate.
    + rewrite M2 in M. injection M as <-. split; [exact K2 |].
      unfold get_head_position in H2.
      destruct (positions s2); [discriminate H2 | discriminate].
Qed.

Lemma reachable_snake_ok (g : Game) : reachable g -> snake_ok (snake g).
Proof.
  induction 1 as [rnd g I | g events rnd t R IH Run B].
  - destruct (main_init_spec rnd g I) as (S & _ & _). rewrite S.
    split; [reflexivity | discriminate].
  - apply (loop_body_with_keeps_snake_ok _ _ _ _ B). exact (proj1 IH).
Qed.

(** An iteration never raises on a snake that has a head. *)
Lemma loop_body_total (events : list Event) (rnd : nat) (g : Game) :
  positions (snake g) <> [] -> exists t, loop_body events rnd g = Some t.
Proof.
  intros N. unfold loop_body, loop_body_with.
  destruct (steered_frame events g) as (FP & _). unfold steered in FP.
  destruct (handle_events events (snake g) (running g)) as [s0 r1].
  cbn [fst] in FP. unfold get_head_position at 1. rewrite FP.
  destruct (positions (snake g)) as [| h rest] eqn:P; [congruence |].
  cbn [obind].
  set (wg := cell_eqb _ _). unfold move_phase, move.
  rewrite (insert_new_head_cons _ h rest FP). cbn [obind].
  assert (K : forall s x l, positions s = x :: l ->
                exists b, check_self_collision s = Some b /\
                          get_head_position s = Some x).
  { intros s x l E. unfold check_self_collision, get_head_position.
    rewrite E. destruct (length s <? 4); eexists; split; reflexivity. }
  unfold collision_phase. destruct wg; cbn [negb obind].
  - match goal with
    | |- context [randomize_position rnd (Some ?o) ?a] =>
        destruct (randomize_position_total rnd (Some o) a) as (a' & E & _)
    end.
    rewrite E. cbn [obind].
    match goal with
    | |- context [check_self_collision ?s] =>
        destruct (K s _ _ eq_refl) as (b & C & HP)
    end.
    rewrite C. cbn [obind]. destruct b; [rewrite HP |];
      cbn [obind]; eexists; reflexivity.
  - match goal with
    | |- context [check_self_collision ?s] =>
        destruct (K s (advance h (direction (update_direction s0)))
                    (removelast (h :: rest))) as (b & C & HP)
    end.
    { cbn [positions set_positions]. rewrite FP. reflexivity. }
    rewrite C. cbn [obind]. destruct b; [rewrite HP |];
      cbn [obind]; eexists; reflexivity.
Qed.

Lemma handle_keys_pending (event : Event) (s : Snake) :
  pending_ok s -> pending_ok (snd (handle_keys event s)).
Proof.
  intros H. unfold handle_keys.
  destruct event as [| key |]; [exact H | | exact H].
  destruct (key_eqb key K_ESCAPE); [exact H |].
  destruct (dict_get key_dir_eqb direction_map (key, direction s))
    as [d |] eqn:E; [| exact H].
  unfold pending_ok. cbn [snd next_direction set_next_direction].
  revert E. unfold direction_map, is_direction. cbn [dict_get].
  repeat match goal with
         | |- context [if ?c then _ else _] => destruct c
         end; intros [= <-]; auto.
Qed.

Lemma handle_events_pending (events : list Event) (s : Snake) (r : bool) :
  pending_ok s -> pending_ok (fst (handle_events events s r)).
Proof.
  revert s r. induction events as [| e es IH]; intros s r H; simpl;
    [exact H |].
  pose proof (handle_keys_pending e s H) as K.
  destruct (handle_keys e s) as [esc s1]. apply IH. exact K.
Qed.

Lemma update_direction_heading (s : Snake) :
  is_direction (direction s) -> pending_ok s ->
  is_direction (direction (update_direction s)).
Proof.
  intros D P. pose proof (update_direction_cases s D) as C.
  unfold pending_ok in P. destruct (next_direction s) as [nd |].
  - destruct (cell_eqb nd (opposite (direction s))); rewrite C; assumption.
  - rewrite C. exact D.
Qed.

Lemma move_heading (grow : bool) (s moved : Snake) :
  move grow s = Some moved ->
  direction moved = direction s /\ next_direction moved = next_direction s.
Proof.
  unfold move, insert_new_head.
  destruct (get_head_position s); [| discriminate]. cbn [obind].
  destruct grow; cbn [negb]; intros [= <-]; split; reflexivity.
Qed.

(** At the head of every iteration the snake heads in one of the four
    directions and nothing is pending. *)
Lemma reachable_heading (g : Game) :
  reachable g ->
  is_direction (direction (snake g)) /\ next_direction (snake g) = None.
Proof.
  induction 1 as [rnd g I | g events rnd t R [D N] Run B].
  - destruct (main_init_spec rnd g I) as (S & _ & _). rewrite S.
    split; [right; right; right |]; reflexivity.
  - unfold loop_body in B.
    destruct (loop_body_with_inv _ _ _ _ B)
      as (h & rest & moved & head_pos & _ & _ & M & _ & _ & _ & S & _).
    destruct (move_heading _ _ _ M) as (MD & MN).
    assert (SD : is_direction (direction (steered events g))).
    { unfold steered. apply update_direction_heading.
      - destruct (handle_events_frame events (snake g) (running g))
          as (_ & _ & F). rewrite F. exact D.
      - apply handle_events_pending. unfold pending_ok. rewrite N. exact I. }
    assert (SN : next_direction (steered events g) = None).
    { unfold steered. apply update_direction_frame. }
    rewrite S. destruct (collided t); cbn; rewrite MD, MN; auto.
Qed.

(** C10. At the head of every iteration of the main loop, from the first one
    on, [length] equals the number of segments in [positions]. *)
Theorem reachable_length_ok (g : Game) :
  reachable g -> length (snake g) = Z.of_nat (List.length (positions (snake g))).
Proof.
  intros R. exact (proj1 (reachable_snake_ok g R)).
Qed.

Lemma spiral_start_reachable : reachable spiral_start.
Proof. apply (reachable_init 419). vm_compute. reflexivity. Qed.

Lemma reachable_length_ok_witness :
  reachable spiral_start /\
  length (snake spiral_start)
  = Z.of_nat (List.length (positions (snake spiral_start))).
Proof.
  split; [exact spiral_start_reachable |].
  exact (reachable_length_ok spiral_start spiral_start_reachable).
Defined.

(** ** Growth and collision in one iteration *)

(** A snake that has just eaten an apple that was not on its body has not
    bitten itself. *)
Lemma grown_head_is_fresh
    (relocate : list Cell -> Apple -> option Apple)
    (events : list Event) (g : Game) (t : Tick) :
  apple_off_snake g ->
  loop_body_with relocate events g = Some t ->
  will_grow t = true -> collided t = false.
Proof.
  intros Off B W.
  destruct (loop_body_with_inv _ _ _ _ B)
    as (h & rest & moved & head_pos & P & G & M & _ & K & _).
  rewrite W in G, M. symmetry in G. apply cell_eqb_eq in G.
  unfold move in M. rewrite (insert_new_head_cons _ h rest P) in M.
  cbn [obind negb] in M. injection M as <-.
  unfold check_self_collision, get_head_position in K.
  cbn [positions set_positions set_length length tl obind] in K.
  match type of K with
  | (if ?c then _ else _) = _ => destruct c
  end; [congruence |].
  injection K as <-. apply cell_mem_false.
  rewrite G. destruct (steered_frame events g) as (FP & _). rewrite FP.
  exact Off.
Qed.

(** The apple stays off the snake through every iteration after which some
    cell of the grid is still free. *)
Lemma apple_off_snake_kept (events : list Event) (rnd : nat) (g : Game)
    (t : Tick) :
  apple_off_snake g ->
  loop_body events rnd g = Some t ->
  free_cells (positions (snake (after t))) <> [] ->
  apple_off_snake (after t).
Proof.
  intros Off B Room. unfold loop_body in B.
  pose proof (grown_head_is_fresh _ _ _ _ Off B) as Fresh.
  destruct (loop_body_with_inv _ _ _ _ B)
    as (h & rest & moved & head_pos & P & G & M & A & _ & HP & S & _).
  destruct (steered_frame events g) as (FP & _).
  unfold apple_off_snake in *.
  destruct (will_grow t) eqn:W.
  - rewrite (Fresh eq_refl) in S. rewrite S in Room |- *.
    destruct (randomize_position_total rnd (Some (positions moved)) (apple g))
      as (a' & E & _ & _ & Hfree).
    rewrite E in A. injection A as <-. apply Hfree. exact Room.
  - rewrite A. symmetry in G.
    unfold move in M. rewrite (insert_new_head_cons _ h rest P) in M.
    cbn [obind negb] in M. injection M as <-.
    cbn [positions set_positions] in *.
    assert (Sub : forall c,
              In c (removelast (advance h (direction (steered events g))
                                :: positions (steered events g))) ->
              c <> apple_position (apple g)).
    { intros c I ->. rewrite P in I.
      change (removelast (?x :: h :: rest))
        with (x :: removelast (h :: rest)) in I.
      destruct I as [I | I].
      - rewrite <- I in G. rewrite cell_eqb_refl in G. discriminate.
      - apply Off. rewrite <- FP, P.
        rewrite (app_removelast_last h (l := h :: rest)) by discriminate.
        apply in_or_app. left. exact I. }
    rewrite S. destruct (collided t).
    + cbn. intros [Q | []]. unfold get_head_position in HP.
      cbn [positions set_positions] in HP. rewrite P in HP.
      change (removelast (?x :: h :: rest))
        with (x :: removelast (h :: rest)) in HP.
      injection HP as HP. apply (Sub head_pos); [| exact Q].
      rewrite P, <- HP. left. reflexivity.
    + intros I. apply (Sub _ I). reflexivity.
Qed.

(** C5, as the code has it. From a reachable state in which the apple does not
    lie on the snake, an iteration in which the snake grows ends with
    [check_self_collision] answering [False]. *)
Theorem growth_excludes_collision
    (events : list Event) (rnd : nat) (g : Game) (t : Tick) :
  reachable g -> apple_off_snake g ->
  loop_body events rnd g = Some t ->
  will_grow t = true -> collided t = false.
Proof.
  intros _ Off B W. unfold loop_body in B.
  exact (grown_head_is_fresh _ _ _ _ Off B W).
Qed.

Lemma growth_excludes_collision_witness :
  reachable spiral_start /\ apple_off_snake spiral_start /\
  loop_body [] 0 spiral_start = Some first_tick /\
  will_grow first_tick = true /\ collided first_tick = false.
Proof.
  assert (Off : apple_off_snake spiral_start).
  { unfold apple_off_snake. simpl. intros [E | []]. discriminate E. }
  assert (B : loop_body [] 0 spiral_start = Some first_tick)
    by (vm_compute; reflexivity).
  assert (W : will_grow first_tick = true) by reflexivity.
  split; [exact spiral_start_reachable | split; [exact Off |]].
  split; [exact B | split; [exact W |]].
  exact (growth_excludes_collision [] 0%nat spiral_start first_tick
           spiral_start_reachable Off B W).
Defined.

(** *** The full field *)

Lemma place_at_possible (pick : Cell) (occupied : list Cell) (a : Apple) :
  pick_ok pick occupied = true ->
  exists rnd,
    randomize_position rnd (Some occupied) a = place_at pick occupied a.
Proof.
  unfold pick_ok, randomize_position, place_at. cbn [occupied_of].
  destruct (is_grid_cell pick) eqn:G; cbn [negb]; [| discriminate].
  apply In_ALL_CELLS in G.
  destruct (cell_mem pick occupied) eqn:Mem; cbn [negb].
  - destruct (free_cells occupied) as [| f fs]; [intros _ | discriminate].
    destruct (random_choice_onto ALL_CELLS pick G) as [rnd E].
    exists rnd. rewrite E. reflexivity.
  - intros _. apply cell_mem_false in Mem.
    assert (I : In pick (free_cells occupied))
      by (apply In_free_cells; auto).
    destruct (random_choice_onto _ pick I) as [rnd E].
    exists rnd. destruct (free_cells occupied) as [| f fs]; [destruct I |].
    rewrite E. reflexivity.
Qed.

(** An iteration run with the apple placed by hand is an iteration of the
    program for some outcome of [random.choice]. *)
Lemma loop_body_with_place_at (pick : Cell) (events : list Event) (g : Game)
    (t : Tick) :
  loop_body_with (place_at pick) events g = Some t ->
  collided t = false ->
  (will_grow t = true -> pick_ok pick (positions (snake (after t))) = true) ->
  exists rnd, loop_body events rnd g = Some t.
Proof.
  unfold loop_body, loop_body_with.
  destruct (handle_events events (snake g) (running g)) as [s0 r1].
  destruct (get_head_position (update_direction s0)) as [hd0 |];
    [| discriminate].
  cbn [obind]. set (wg := cell_eqb _ _). unfold move_phase.
  destruct wg.
  - destruct (move true (update_direction s0)) as [m |]; [| discriminate].
    cbn [obind]. unfold place_at at 1. cbn [obind]. unfold collision_phase.
    destruct (check_self_collision m) as [[|] |] eqn:K; [| | discriminate];
      cbn [obind].
    + destruct (get_head_position m); [| discriminate]. cbn [obind].
      intros [= <-] C. discriminate C.
    + intros [= <-] _ Ok. cbn in Ok.
      destruct (place_at_possible pick (positions m) (apple g) (Ok eq_refl))
        as [rnd R].
      exists rnd. rewrite R. unfold place_at. cbn [obind].
      rewrite K. reflexivity.
  - intros B _ _. exists 0%nat. exact B.
Qed.

Lemma run_plan_reachable (plan : list (list Event * Cell)) :
  forall g g', run_plan plan g = Some g' -> reachable g -> reachable g'.
Proof.
  induction plan as [| [events pick] rest IH]; intros g g'; simpl.
  - intros [= <-] R. exact R.
  - destruct (running g) eqn:Run; [| discriminate].
    destruct (loop_body_with (place_at pick) events g) as [t |] eqn:B;
      [| discriminate].
    cbn [obind]. destruct (collided t) eqn:C; [discriminate |].
    intros P R. apply (IH (after t)).
    + destruct (will_grow t); [| exact P].
      destruct (pick_ok pick _); [exact P | discriminate].
    + assert (Ok : will_grow t = true ->
                   pick_ok pick (positions (snake (after t))) = true).
      { intros W. rewrite W in P.
        destruct (pick_ok pick _); [reflexivity | discriminate]. }
      destruct (loop_body_with_place_at pick events g t B C Ok) as [rnd L].
      exact (reachable_tick g events rnd t R Run L).
Qed.

(** C5, as stated, does not hold. The snake that has walked the spiral covers
    the whole field; the apple then lies on its body, right in front of its
    head, and the next iteration both grows the snake and finds it biting
    itself. *)
Lemma growth_and_collision_on_full_field :
  exists g t,
    run_plan spiral_plan spiral_start = Some g /\
    reachable g /\ running g = true /\
    loop_body [] 0 g = Some t /\ will_grow t = true /\ collided t = true.
Proof.
  assert (C : match run_plan spiral_plan spiral_start with
              | Some g =>
                  match loop_body [] 0 g with
                  | Some t => running g && will_grow t && collided t
                  | None => false
                  end
              | None => false
              end = true) by (vm_compute; reflexivity).
  destruct (run_plan spiral_plan spiral_start) as [g |] eqn:E;
    [| discriminate C].
  destruct (loop_body [] 0 g) as [t |] eqn:L; [| discriminate C].
  apply andb_true_iff in C. destruct C as [C C3].
  apply andb_true_iff in C. destruct C as [C1 C2].
  exists g, t. repeat split; auto.
  exact (run_plan_reachable spiral_plan spiral_start g E
           spiral_start_reachable).
Qed.

(** * Further properties of the code *)

(** ** The grid *)

Lemma distinctb_NoDup (l : list Cell) : distinctb l = true <-> NoDup l.
Proof.
  induction l as [| c l IH]; simpl.
  - split; [constructor | reflexivity].
  - rewrite andb_true_iff, negb_true_iff, cell_mem_false, IH. split.
    + intros [A B]. constructor; assumption.
    + intros H. inversion H; subst. split; assumption.
Qed.

(** [ALL_CELLS] holds each cell once, 768 of them: exactly the pairs of
    multiples of [CELL_SIZE] inside the screen. *)
Theorem ALL_CELLS_is_the_grid :
  NoDup ALL_CELLS /\
  List.length ALL_CELLS = 768%nat /\
  forall x y, In (x, y) ALL_CELLS <->
              (0 <= x < SCREEN_WIDTH /\ x mod CELL_SIZE = 0 /\
               0 <= y < SCREEN_HEIGHT /\ y mod CELL_SIZE = 0).
Proof.
  split; [| split].
  - apply distinctb_NoDup. vm_compute. reflexivity.
  - vm_compute. reflexivity.
  - intros x y. rewrite In_ALL_CELLS. unfold is_grid_cell. cbn [fst snd].
    rewrite !andb_true_iff, !Z.leb_le, !Z.ltb_lt, !Z.eqb_eq. tauto.
Qed.

Lemma grid_step (m x a : Z) :
  m mod CELL_SIZE = 0 -> 0 < m -> a mod CELL_SIZE = 0 ->
  0 <= x < m -> x mod CELL_SIZE = 0 ->
  0 <= (x + a) mod m < m /\ ((x + a) mod m) mod CELL_SIZE = 0.
Proof.
  unfold CELL_SIZE. intros Hm Pm Ha Hx Hx0.
  split; [apply Z.mod_pos_bound; exact Pm |].
  Z.div_mod_to_equations. lia.
Qed.

Lemma advance_grid_cell (c d : Cell) :
  is_grid_cell c = true -> is_direction d -> is_grid_cell (advance c d) = true.
Proof.
  destruct c as [x y]. unfold is_grid_cell, advance. cbn [fst snd].
  rewrite !andb_true_iff, !Z.leb_le, !Z.ltb_lt, !Z.eqb_eq.
  intros [[[[[X0 X1] Xm] Y0] Y1] Ym] D.
  assert (A : fst d mod CELL_SIZE = 0 /\ snd d mod CELL_SIZE = 0)
    by (destruct D as [-> | [-> | [-> | ->]]]; split; reflexivity).
  destruct A as [A1 A2].
  destruct (grid_step SCREEN_WIDTH x (fst d)) as [[P1 P2] P3];
    try assumption; try reflexivity; [lia |].
  destruct (grid_step SCREEN_HEIGHT y (snd d)) as [[Q1 Q2] Q3];
    try assumption; try reflexivity; [lia |].
  repeat split; assumption.
Qed.

(** The new head is inside the field for every head and every vector, and
    on a cell of the grid when the head was on one and the vector is one of
    the four headings. *)
Theorem advance_stays_on_grid (c d : Cell) :
  in_field (advance c d) /\
  (In c ALL_CELLS -> is_direction d -> In (advance c d) ALL_CELLS).
Proof.
  split; [apply advance_in_field |].
  intros I D. apply In_ALL_CELLS. apply advance_grid_cell; [| exact D].
  apply In_ALL_CELLS. exact I.
Qed.

Lemma advance_stays_on_grid_witness :
  In (620, 0) ALL_CELLS /\ is_direction UP /\
  In (advance (620, 0) UP) ALL_CELLS.
Proof.
  assert (I : In (620, 0) ALL_CELLS) by (apply In_ALL_CELLS; reflexivity).
  assert (D : is_direction UP) by (left; reflexivity).
  split; [exact I | split; [exact D |]].
  exact (proj2 (advance_stays_on_grid (620, 0) UP) I D).
Defined.

(** A step over an edge of the field comes back in at the opposite edge, on
    the same row or column; any other step moves by one cell. *)
Theorem advance_wraps_at_edges (x y : Z) :
  in_field (x, y) ->
  advance (x, y) RIGHT =
    ((if x + CELL_SIZE <? SCREEN_WIDTH then x + CELL_SIZE
      else x + CELL_SIZE - SCREEN_WIDTH), y) /\
  advance (x, y) LEFT =
    ((if CELL_SIZE <=? x then x - CELL_SIZE
      else x - CELL_SIZE + SCREEN_WIDTH), y) /\
  advance (x, y) DOWN =
    (x, (if y + CELL_SIZE <? SCREEN_HEIGHT then y + CELL_SIZE
         else y + CELL_SIZE - SCREEN_HEIGHT)) /\
  advance (x, y) UP =
    (x, (if CELL_SIZE <=? y then y - CELL_SIZE
         else y - CELL_SIZE + SCREEN_HEIGHT)).
Proof.
  unfold in_field, advance, RIGHT, LEFT, DOWN, UP, SCREEN_WIDTH,
    SCREEN_HEIGHT, FIELD_WIDTH, FIELD_HEIGHT, CELL_SIZE.
  cbn [fst snd]. intros [Hx Hy].
  change (32 * 20) with 640 in *. change (24 * 20) with 480 in *.
  rewrite !Z.add_0_r, (Z.mod_small x 640), (Z.mod_small y 480) by lia.
  repeat split; f_equal.
  - destruct (Z.ltb_spec (x + 20) 640); Z.div_mod_to_equations; lia.
  - destruct (Z.leb_spec 20 x); Z.div_mod_to_equations; lia.
  - destruct (Z.ltb_spec (y + 20) 480); Z.div_mod_to_equations; lia.
  - destruct (Z.leb_spec 20 y); Z.div_mod_to_equations; lia.
Qed.

Lemma advance_wraps_at_edges_witness :
  in_field (620, 100) /\ advance (620, 100) RIGHT = (0, 100).
Proof.
  assert (H : in_field (620, 100)) by field_arith.
  split; [exact H |].
  exact (proj1 (advance_wraps_at_edges 620 100 H)).
Defined.

(** ** Keys and headings *)

(** [update_direction] twice is [update_direction] once, and the call touches
    neither the segments nor [length]. *)
Theorem update_direction_idempotent (s : Snake) :
  update_direction (update_direction s) = update_direction s /\
  positions (update_direction s) = positions s /\
  length (update_direction s) = length s.
Proof.
  destruct (update_direction_frame s) as (P & L & N).
  split; [| split; assumption].
  unfold update_direction at 1. rewrite N. reflexivity.
Qed.

Lemma perpendicular_not_opposite (d e : Cell) :
  is_direction e -> perpendicular d e -> cell_eqb d (opposite e) = false.
Proof.
  intros E P. destruct (cell_eqb d (opposite e)) eqn:Q; [| reflexivity].
  apply cell_eqb_eq in Q. subst d. exfalso. revert P.
  destruct E as [-> | [-> | [-> | ->]]]; unfold perpendicular; simpl;
    discriminate.
Qed.

Lemma handle_keys_cases (event : Event) (s : Snake) :
  is_direction (direction s) ->
  snd (handle_keys event s) = s \/
  exists key d, event = KEYDOWN key /\ key_heading key = Some d /\
                is_direction d /\ perpendicular d (direction s) /\
                snd (handle_keys event s) = set_next_direction (Some d) s.
Proof.
  intros D. unfold handle_keys.
  destruct event as [| key |]; [left; reflexivity | | left; reflexivity].
  destruct D as [E | [E | [E | E]]]; rewrite E; destruct key;
    cbn; try (left; reflexivity); right.
  all: eexists; eexists; split; [reflexivity |]; split; [reflexivity |].
  all: unfold is_direction, perpendicular; cbn; tauto.
Qed.

Lemma handle_keys_arrow (key : Key) (d : Cell) (s : Snake) :
  is_direction (direction s) -> key_heading key = Some d ->
  snd (handle_keys (KEYDOWN key) s) =
    if (fst d * fst (direction s) + snd d * snd (direction s) =? 0)
    then set_next_direction (Some d) s else s.
Proof.
  intros D K. unfold handle_keys.
  destruct D as [E | [E | [E | E]]]; rewrite E; destruct key;
    cbn in K; try discriminate K; injection K as <-; reflexivity.
Qed.

(** [handle_keys] answers [True] exactly for the Escape key. A snake heading
    in one of the four directions is left as it is unless the key is an arrow
    at a right angle to its heading, which is then put into the pending slot;
    nothing else of the snake changes. *)
Theorem handle_keys_requests_turns (event : Event) (s : Snake) :
  is_direction (direction s) ->
  fst (handle_keys event s) =
    match event with KEYDOWN K_ESCAPE => true | _ => false end /\
  (forall key d, event = KEYDOWN key -> key_heading key = Some d ->
     snd (handle_keys event s) =
       if (fst d * fst (direction s) + snd d * snd (direction s) =? 0)
       then set_next_direction (Some d) s else s) /\
  ((forall key, event = KEYDOWN key -> key_heading key = None) ->
   snd (handle_keys event s) = s).
Proof.
  intros D. split; [| split].
  - unfold handle_keys. destruct event as [| key |]; try reflexivity.
    destruct key; try reflexivity;
      destruct (dict_get key_dir_eqb direction_map _); reflexivity.
  - intros key d -> K. apply handle_keys_arrow; assumption.
  - intros H. destruct event as [| key |]; try reflexivity.
    specialize (H key eq_refl). unfold handle_keys.
    destruct key; try discriminate H; reflexivity.
Qed.

Lemma handle_keys_requests_turns_witness :
  is_direction (direction Snake_init) /\
  snd (handle_keys (KEYDOWN K_UP) Snake_init)
  = set_next_direction (Some UP) Snake_init /\
  snd (handle_keys (KEYDOWN K_LEFT) Snake_init) = Snake_init.
Proof.
  assert (D : is_direction (direction Snake_init))
    by (right; right; right; reflexivity).
  destruct (handle_keys_requests_turns (KEYDOWN K_UP) Snake_init D)
    as (_ & U & _).
  destruct (handle_keys_requests_turns (KEYDOWN K_LEFT) Snake_init D)
    as (_ & L & _).
  split; [exact D | split].
  - exact (U K_UP UP eq_refl eq_refl).
  - exact (L K_LEFT LEFT eq_refl eq_refl).
Defined.

Lemma handle_events_app (es1 es2 : list Event) (s : Snake) (r : bool) :
  handle_events (es1 ++ es2) s r =
  handle_events es2 (fst (handle_events es1 s r)) (snd (handle_events es1 s r)).
Proof.
  revert s r. induction es1 as [| e es IH]; intros s r; simpl.
  - reflexivity.
  - destruct (handle_keys e s) as [esc s1]. apply IH.
Qed.

Lemma handle_keys_escape (event : Event) (s : Snake) :
  fst (handle_keys event s) =
  match event with KEYDOWN K_ESCAPE => true | _ => false end.
Proof.
  unfold handle_keys. destruct event as [| key |]; try reflexivity.
  destruct key; try reflexivity;
    destruct (dict_get key_dir_eqb direction_map _); reflexivity.
Qed.

(** The event loop of an iteration leaves the segments, [length] and the
    heading alone, and the game keeps running exactly when it was running and
    no event of the batch was a window close or the Escape key: a flag once
    cleared is never set again. *)
Theorem handle_events_running (events : list Event) (s : Snake) (r : bool) :
  snd (handle_events events s r) = r && negb (existsb stops events) /\
  positions (fst (handle_events events s r)) = positions s /\
  length (fst (handle_events events s r)) = length s /\
  direction (fst (handle_events events s r)) = direction s.
Proof.
  split; [| apply handle_events_frame].
  revert s r. induction events as [| e es IH]; intros s r; simpl.
  - rewrite andb_true_r. reflexivity.
  - pose proof (handle_keys_escape e s) as K.
    destruct (handle_keys e s) as [esc s1]. cbn [fst] in K. rewrite IH, K.
    destruct e as [| key |]; [| destruct key |]; cbn;
      rewrite ?andb_false_r, ?andb_true_r; try reflexivity.
    all: destruct r; reflexivity.
Qed.

Lemma handle_events_pending_turn (events : list Event) (s : Snake) (r : bool) :
  is_direction (direction s) -> pending_turn s ->
  pending_turn (fst (handle_events events s r)).
Proof.
  revert s r. induction events as [| e es IH]; intros s r D P; simpl;
    [exact P |].
  pose proof (handle_keys_cases e s D) as C.
  destruct (handle_keys e s) as [esc s1]. cbn [snd] in C.
  apply IH.
  - destruct C as [-> | (key & d & _ & _ & _ & _ & ->)]; exact D.
  - destruct C as [-> | (key & d & _ & _ & Hd & Hp & ->)]; [exact P |].
    unfold pending_turn. cbn. split; assumption.
Qed.

(** Of the arrow keys of one batch the last one at a right angle to the
    heading decides: whatever came before it, the pending slot holds its
    heading when the batch ends with it. *)
Theorem last_turn_key_wins (events : list Event) (key : Key) (d : Cell)
    (s : Snake) (r : bool) :
  is_direction (direction s) ->
  key_heading key = Some d -> perpendicular d (direction s) ->
  next_direction (fst (handle_events (events ++ [KEYDOWN key]) s r)) = Some d.
Proof.
  intros D K P. rewrite handle_events_app.
  destruct (handle_events_frame events s r) as (_ & _ & F).
  set (s1 := fst (handle_events events s r)) in *.
  set (r1 := snd (handle_events events s r)).
  assert (D1 : is_direction (direction s1)) by (rewrite F; exact D).
  pose proof (handle_keys_arrow key d s1 D1 K) as T. rewrite F in T.
  unfold perpendicular in P. rewrite P in T. cbn [Z.eqb] in T.
  cbn [handle_events]. destruct (handle_keys (KEYDOWN key) s1) as [esc s2].
  cbn [snd] in T. subst s2. reflexivity.
Qed.

Lemma last_turn_key_wins_witness :
  is_direction (direction Snake_init) /\
  key_heading K_DOWN = Some DOWN /\
  perpendicular DOWN (direction Snake_init) /\
  next_direction
    (fst (handle_events ([KEYDOWN K_UP; OTHER_EVENT] ++ [KEYDOWN K_DOWN])
            Snake_init true)) = Some DOWN.
Proof.
  assert (D : is_direction (direction Snake_init))
    by (right; right; right; reflexivity).
  assert (P : perpendicular DOWN (direction Snake_init)) by reflexivity.
  split; [exact D | split; [reflexivity | split; [exact P |]]].
  exact (last_turn_key_wins [KEYDOWN K_UP; OTHER_EVENT] K_DOWN DOWN
           Snake_init true D eq_refl P).
Defined.

Lemma steered_direction_cases (events : list Event) (g : Game) :
  reachable g ->
  match next_direction (fst (handle_events events (snake g) (running g))) with
  | Some d =>
      is_direction d /\ perpendicular d (direction (snake g)) /\
      direction (steered events g) = d
  | None => direction (steered events g) = direction (snake g)
  end.
Proof.
  intros R. destruct (reachable_heading g R) as [D N].
  assert (P : pending_turn (snake g))
    by (unfold pending_turn; rewrite N; exact I).
  pose proof (handle_events_pending_turn events _ (running g) D P) as PT.
  destruct (handle_events_frame events (snake g) (running g)) as (_ & _ & F).
  unfold steered.
  set (s0 := fst (handle_events events (snake g) (running g))) in *.
  assert (D0 : is_direction (direction s0)) by (rewrite F; exact D).
  pose proof (update_direction_cases s0 D0) as C.
  unfold pending_turn in PT.
  destruct (next_direction s0) as [d |].
  - destruct PT as [Hd Hp]. rewrite F in Hp.
    rewrite F, (perpendicular_not_opposite d _ D Hp) in C. auto.
  - rewrite C. exact F.
Qed.

(** In the main loop every turn that [handle_keys] has put into the pending
    slot is taken: the slot only ever holds a heading at a right angle to the
    current one, so the reversal test of [update_direction] never rejects
    it; with an empty slot the heading stays. *)
Theorem pending_turn_is_taken (events : list Event) (g : Game) :
  reachable g ->
  match next_direction (fst (handle_events events (snake g) (running g))) with
  | Some d =>
      is_direction d /\ perpendicular d (direction (snake g)) /\
      direction (steered events g) = d
  | None => direction (steered events g) = direction (snake g)
  end.
Proof.
  intros R. exact (steered_direction_cases events g R).
Qed.

Lemma pending_turn_is_taken_witness :
  reachable spiral_start /\
  direction (steered [KEYDOWN K_UP] spiral_start) = UP /\
  direction (steered [KEYDOWN K_LEFT] spiral_start) = RIGHT.
Proof.
  split; [exact spiral_start_reachable | split].
  - exact (proj2 (proj2
      (pending_turn_is_taken [KEYDOWN K_UP] spiral_start
         spiral_start_reachable))).
  - exact (pending_turn_is_taken [KEYDOWN K_LEFT] spiral_start
             spiral_start_reachable).
Defined.

(** ** The body of the snake *)

Lemma advance_moves (c d : Cell) :
  in_field c -> is_direction d -> advance c d <> c.
Proof.
  destruct c as [x y]. unfold in_field, advance, SCREEN_WIDTH, SCREEN_HEIGHT,
    FIELD_WIDTH, FIELD_HEIGHT, CELL_SIZE. cbn [fst snd].
  change (32 * 20) with 640. change (24 * 20) with 480.
  intros [Hx Hy] [-> | [-> | [-> | ->]]]; cbn [fst snd UP DOWN LEFT RIGHT];
    unfold UP, DOWN, LEFT, RIGHT, CELL_SIZE; cbn [fst snd];
    intros [= Ex Ey]; Z.div_mod_to_equations; lia.
Qed.

Lemma advance_twice_moves (c d1 d2 : Cell) :
  in_field c -> is_direction d1 -> is_direction d2 -> d2 <> opposite d1 ->
  advance (advance c d1) d2 <> c.
Proof.
  destruct c as [x y]. unfold in_field, advance, SCREEN_WIDTH, SCREEN_HEIGHT,
    FIELD_WIDTH, FIELD_HEIGHT, CELL_SIZE. cbn [fst snd].
  change (32 * 20) with 640. change (24 * 20) with 480.
  intros [Hx Hy] [-> | [-> | [-> | ->]]] [-> | [-> | [-> | ->]]] N;
    try (exfalso; apply N; reflexivity);
    unfold UP, DOWN, LEFT, RIGHT, CELL_SIZE; cbn [fst snd];
    rewrite !Zplus_mod_idemp_l;
    intros [= Ex Ey]; Z.div_mod_to_equations; lia.
Qed.

Lemma steered_heading (events : list Event) (g : Game) :
  reachable g ->
  is_direction (direction (steered events g)) /\
  direction (steered events g) <> opposite (direction (snake g)).
Proof.
  intros R. destruct (reachable_heading g R) as [D _].
  pose proof (steered_direction_cases events g R) as C.
  destruct (next_direction _) as [d |].
  - destruct C as (Hd & Hp & ->). split; [exact Hd |].
    intros E. pose proof (perpendicular_not_opposite d _ D Hp) as Q.
    rewrite E, cell_eqb_refl in Q. discriminate Q.
  - rewrite C. split; [exact D |]. intros E.
    exact (opposite_differs _ D (eq_sym E)).
Qed.

Lemma In_removelast (x : Cell) (l : list Cell) :
  In x (removelast l) -> In x l.
Proof.
  induction l as [| a l IH]; simpl; [auto |].
  destruct l as [| b l]; [intros [] |].
  intros [E | I]; [left; exact E | right; apply IH; exact I].
Qed.

Lemma NoDup_removelast (l : list Cell) : NoDup l -> NoDup (removelast l).
Proof.
  induction l as [| a l IH]; simpl; [auto |].
  destruct l as [| b l]; [intros _; constructor |].
  intros H. inversion H as [| ? ? Na Nl]; subst. constructor.
  - intros I. apply Na. apply In_removelast. exact I.
  - apply IH. exact Nl.
Qed.

(** A list that is [l] or [l] without its last cell, and has at most two
    cells, holds only the first two cells of [l]. *)
Lemma short_prefix (h : Cell) (rest t : list Cell) (x : Cell) :
  t = h :: rest \/ t = removelast (h :: rest) ->
  (List.length t <= 2)%nat -> In x t ->
  x = h \/ exists h2 r, rest = h2 :: r /\ x = h2.
Proof.
  intros T Len I.
  destruct rest as [| h2 [| h3 [| h4 r]]]; destruct T as [-> | ->];
    simpl in Len, I; try lia;
    repeat match goal with
           | H : _ \/ _ |- _ => destruct H as [<- | H]
           | H : False |- _ => destruct H
           end;
    try (left; reflexivity);
    right; eexists; eexists; split; reflexivity.
Qed.

Lemma move_shape (grow : bool) (s moved : Snake) (h : Cell) (rest : list Cell) :
  positions s = h :: rest -> move grow s = Some moved ->
  exists tailpart,
    (tailpart = h :: rest \/ tailpart = removelast (h :: rest)) /\
    (grow = true -> tailpart = h :: rest) /\
    (grow = false -> tailpart = removelast (h :: rest)) /\
    positions moved = advance h (direction s) :: tailpart /\
    direction moved = direction s /\
    (length_ok s -> length_ok moved).
Proof.
  intros P M.
  assert (LO : length_ok s -> length_ok moved).
  { intros L. destruct (move_cases s h rest L P)
      as ((s1 & M1 & _ & _ & _ & K1) & (s2 & M2 & _ & _ & _ & K2)).
    destruct grow; [rewrite M1 in M | rewrite M2 in M];
      injection M as <-; assumption. }
  revert M. unfold move. rewrite (insert_new_head_cons s h rest P).
  cbn [obind]. destruct grow; cbn [negb]; intros [= <-].
  - exists (h :: rest). cbn [positions set_positions set_length direction].
    split; [left; reflexivity |]. split; [reflexivity |].
    split; [discriminate |]. split; [rewrite P; reflexivity |].
    split; [reflexivity | exact LO].
  - exists (removelast (h :: rest)).
    cbn [positions set_positions set_length direction].
    split; [right; reflexivity |]. split; [discriminate |].
    split; [reflexivity |]. split; [rewrite P; reflexivity |].
    split; [reflexivity | exact LO].
Qed.

Lemma loop_body_keeps_body_ok (events : list Event) (rnd : nat) (g : Game)
    (t : Tick) :
  reachable g -> body_ok (snake g) ->
  loop_body events rnd g = Some t -> body_ok (snake (after t)).
Proof.
  intros R (ND & GR & NK & _) B. unfold loop_body in B.
  destruct (loop_body_with_inv _ _ _ _ B)
    as (h & rest & moved & head_pos & P & _ & M & _ & K & HP & S & _).
  destruct (reachable_snake_ok g R) as [L _].
  destruct (steered_frame events g) as (FP & FL).
  destruct (steered_heading events g R) as (SD & NR).
  assert (L1 : length_ok (steered events g))
    by (unfold length_ok; rewrite FP, FL; exact L).
  destruct (move_shape _ _ _ h rest P M)
    as (tp & TP & _ & _ & PM & DM & LM).
  specialize (LM L1).
  rewrite FP in P. rewrite P in ND, GR.
  set (d := direction (steered events g)) in *.
  set (nh := advance h d) in *.
  assert (Hh : In h ALL_CELLS) by (inversion GR; assumption).
  assert (Hnh : In nh ALL_CELLS).
  { apply In_ALL_CELLS. apply advance_grid_cell; [| exact SD].
    apply In_ALL_CELLS. exact Hh. }
  assert (Sub : forall x, In x tp -> In x (h :: rest)).
  { intros x I. destruct TP as [-> | ->]; [exact I |].
    apply In_removelast. exact I. }
  assert (NDtp : NoDup tp).
  { destruct TP as [-> | ->]; [exact ND | apply NoDup_removelast; exact ND]. }
  assert (GRtp : Forall (fun c => In c ALL_CELLS) tp).
  { apply Forall_forall. intros x I. apply Sub in I.
    rewrite Forall_forall in GR. apply GR. exact I. }
  assert (NKm : neck_ok moved).
  { unfold neck_ok. rewrite PM, DM.
    destruct tp as [| h' tp']; [exact I |].
    assert (E : h' = h); [| rewrite E; reflexivity].
    destruct TP as [TP | TP].
    - injection TP as -> _. reflexivity.
    - destruct rest as [| h2 rest']; [discriminate TP |].
      change (removelast (h :: h2 :: rest'))
        with (h :: removelast (h2 :: rest')) in TP.
      injection TP as -> _. reflexivity. }
  assert (HPn : head_pos = nh).
  { unfold get_head_position in HP. rewrite PM in HP.
    injection HP as <-. reflexivity. }
  rewrite S. destruct (collided t) eqn:C.
  - unfold body_ok. cbn [positions set_positions set_length direction].
    rewrite HPn, DM. repeat split.
    + constructor; [intros [] | constructor].
    + constructor; [exact Hnh | constructor].
    + exact SD.
  - unfold body_ok. rewrite PM, DM. repeat split; try assumption.
    + constructor; [| exact NDtp]. intros Inh.
      unfold check_self_collision, get_head_position in K.
      rewrite PM in K. cbn [obind tl] in K.
      destruct (length moved <? 4) eqn:Q.
      * apply Z.ltb_lt in Q. unfold length_ok in LM. rewrite PM in LM.
        cbn [List.length] in LM.
        assert (Len : (List.length tp <= 2)%nat) by lia.
        assert (Fh : in_field h).
        { apply In_ALL_CELLS in Hh. unfold is_grid_cell in Hh.
          unfold in_field. destruct h as [hx hy]. cbn [fst snd] in *.
          rewrite !andb_true_iff, !Z.leb_le, !Z.ltb_lt in Hh. tauto. }
        destruct (short_prefix h rest tp nh TP Len Inh)
          as [E | (h2 & r & -> & E)].
        -- exact (advance_moves h d Fh SD E).
        -- unfold neck_ok in NK. rewrite P in NK.
           assert (Fh2 : in_field h2).
           { rewrite Forall_forall in GR.
             assert (I2 : In h2 ALL_CELLS)
               by (apply GR; right; left; reflexivity).
             apply In_ALL_CELLS in I2. unfold is_grid_cell in I2.
             unfold in_field. destruct h2 as [x2 y2]. cbn [fst snd] in *.
             rewrite !andb_true_iff, !Z.leb_le, !Z.ltb_lt in I2. tauto. }
           destruct (reachable_heading g R) as [D _].
           apply (advance_twice_moves h2 (direction (snake g)) d Fh2 D SD NR).
           rewrite <- NK. exact E.
      * injection K as K. apply cell_mem_false in K. exact (K Inh).
    + constructor; assumption.
Qed.

Lemma reachable_body_ok (g : Game) : reachable g -> body_ok (snake g).
Proof.
  induction 1 as [rnd g I | g events rnd t R IH Run B].
  - destruct (main_init_spec rnd g I) as (S & _ & _). rewrite S.
    unfold body_ok. cbn. repeat split.
    + constructor; [intros [] | constructor].
    + constructor; [apply In_ALL_CELLS; reflexivity | constructor].
    + right; right; right; reflexivity.
  - exact (loop_body_keeps_body_ok events rnd g t R IH B).
Qed.

(** At the head of every iteration of the main loop the segments of the
    snake are pairwise distinct, so that [check_self_collision] would answer
    [False] there: a bite never outlives the iteration it happens in. *)
Theorem segments_are_distinct (g : Game) :
  reachable g ->
  NoDup (positions (snake g)) /\ check_self_collision (snake g) = Some false.
Proof.
  intros R. destruct (reachable_body_ok g R) as (ND & _).
  destruct (reachable_snake_ok g R) as (_ & NE).
  split; [exact ND |]. unfold check_self_collision, get_head_position.
  destruct (length (snake g) <? 4); [reflexivity |].
  destruct (positions (snake g)) as [| h rest]; [congruence |].
  cbn [obind tl]. f_equal. apply cell_mem_false.
  inversion ND; assumption.
Qed.

Lemma segments_are_distinct_witness :
  reachable spiral_start /\
  NoDup (positions (snake spiral_start)) /\
  check_self_collision (snake spiral_start) = Some false.
Proof.
  split; [exact spiral_start_reachable |].
  exact (segments_are_distinct spiral_start spiral_start_reachable).
Defined.

(** At the head of every iteration every segment lies on a cell of the grid
    and the snake has between 1 and 768 segments, as many as [length]
    says. *)
Theorem snake_fits_the_grid (g : Game) :
  reachable g ->
  Forall (fun c => In c ALL_CELLS) (positions (snake g)) /\
  1 <= length (snake g) <= FIELD_WIDTH * FIELD_HEIGHT.
Proof.
  intros R. destruct (reachable_body_ok g R) as (ND & GR & _).
  destruct (reachable_snake_ok g R) as (L & NE).
  split; [exact GR |]. rewrite L.
  assert (Le : (List.length (positions (snake g)) <= List.length ALL_CELLS)%nat).
  { apply NoDup_incl_length; [exact ND |].
    intros x I. rewrite Forall_forall in GR. apply GR. exact I. }
  assert (N : List.length ALL_CELLS = 768%nat) by (vm_compute; reflexivity).
  rewrite N in Le. change (FIELD_WIDTH * FIELD_HEIGHT) with 768.
  destruct (positions (snake g)); [congruence |]. simpl List.length in *. lia.
Qed.

Lemma snake_fits_the_grid_witness :
  reachable spiral_start /\
  Forall (fun c => In c ALL_CELLS) (positions (snake spiral_start)) /\
  1 <= length (snake spiral_start) <= FIELD_WIDTH * FIELD_HEIGHT.
Proof.
  split; [exact spiral_start_reachable |].
  exact (snake_fits_the_grid spiral_start spiral_start_reachable).
Defined.

(** At the head of every iteration the snake heads in one of the four
    directions and the pending slot is empty: a request is consumed by the
    iteration that reads it. *)
Theorem heading_is_one_of_four (g : Game) :
  reachable g ->
  is_direction (direction (snake g)) /\ next_direction (snake g) = None.
Proof.
  intros R. exact (reachable_heading g R).
Qed.

Lemma heading_is_one_of_four_witness :
  reachable spiral_start /\
  is_direction (direction (snake spiral_start)) /\
  next_direction (snake spiral_start) = None.
Proof.
  split; [exact spiral_start_reachable |].
  exact (heading_is_one_of_four spiral_start spiral_start_reachable).
Defined.

(** ** The main loop *)

(** [main] starts without raising, whatever [random.choice] returns: the
    snake is the one [Snake()] builds, the apple lies on a cell of the grid
    other than the snake's, the record is 1 and there is no tail to erase. *)
Theorem main_starts (rnd : nat) :
  exists g, main_init rnd = Some g /\
            snake g = Snake_init /\
            In (apple_position (apple g)) ALL_CELLS /\
            apple_position (apple g) <> CENTER_POSITION /\
            last_tail_position g = None /\ best_length g = 1 /\
            running g = true.
Proof.
  unfold main_init, Apple_init.
  destruct (randomize_position_total rnd None
              (mkApple CENTER_POSITION (positions Snake_init)))
    as (a' & E & _ & G & Hfree).
  rewrite E. cbn [obind]. eexists. split; [reflexivity |].
  cbn [snake apple last_tail_position best_length running].
  repeat split; try assumption.
  intros Q. apply Hfree.
  - cbn [occupied_of occupied_positions].
    assert (I : In (0, 0) (free_cells (positions Snake_init))).
    { apply In_free_cells. split; [apply In_ALL_CELLS; reflexivity |].
      simpl. intros [Q' | []]. discriminate Q'. }
    intros Z. rewrite Z in I. destruct I.
  - cbn [occupied_of occupied_positions]. left. symmetry. exact Q.
Qed.

(** An iteration of the main loop never raises: from every state at the head
    of the loop, for every batch of events and every outcome of
    [random.choice], the body runs to its end. *)
Theorem main_loop_never_raises (g : Game) (events : list Event) (rnd : nat) :
  reachable g -> exists t, loop_body events rnd g = Some t.
Proof.
  intros R. apply loop_body_total. exact (proj2 (reachable_snake_ok g R)).
Qed.

Lemma main_loop_never_raises_witness :
  reachable spiral_start /\
  exists t, loop_body [KEYDOWN K_UP; QUIT] 3 spiral_start = Some t.
Proof.
  split; [exact spiral_start_reachable |].
  exact (main_loop_never_raises spiral_start [KEYDOWN K_UP; QUIT] 3%nat
           spiral_start_reachable).
Defined.

(** The bookkeeping of an iteration: the record and the tail to erase. *)
Lemma loop_body_with_books (relocate : list Cell -> Apple -> option Apple)
    (events : list Event) (g : Game) (t : Tick) :
  loop_body_with relocate events g = Some t ->
  exists moved,
    move (will_grow t) (steered events g) = Some moved /\
    best_length (after t) =
      (if will_grow t
       then if length moved >? best_length g
            then length moved else best_length g
       else best_length g) /\
    last_tail_position (after t) =
      (if will_grow t || collided t then None
       else Some (last (positions (snake g)) (0, 0))).
Proof.
  destruct (steered_frame events g) as (FP & _). revert FP.
  unfold loop_body_with, steered.
  destruct (handle_events events (snake g) (running g)) as [s0 r1].
  cbn [fst snd]. intros FP. unfold get_head_position at 1. rewrite FP.
  destruct (positions (snake g)) as [| h rest] eqn:P; [discriminate |].
  cbn [obind]. set (wg := cell_eqb _ _). unfold move_phase.
  destruct wg.
  - destruct (move true (update_direction s0)) as [m |] eqn:M;
      [| discriminate].
    cbn [obind].
    destruct (relocate (positions m) (apple g)) as [a2 |]; [| discriminate].
    cbn [obind]. unfold collision_phase.
    destruct (check_self_collision m) as [[|] |]; [| | discriminate];
      cbn [obind].
    + destruct (get_head_position m); [| discriminate]. cbn [obind].
      intros [= <-]. exists m. cbn. rewrite M. auto.
    + intros [= <-]. exists m. cbn. rewrite M. auto.
  - destruct (move false (update_direction s0)) as [m |] eqn:M;
      [| discriminate].
    cbn [obind]. unfold collision_phase.
    destruct (check_self_collision m) as [[|] |]; [| | discriminate];
      cbn [obind].
    + destruct (get_head_position m); [| discriminate]. cbn [obind].
      intros [= <-]. exists m. cbn. rewrite M. auto.
    + intros [= <-]. exists m. cbn. rewrite M. auto.
Qed.


Lemma first_tick_run : loop_body [] 0 spiral_start = Some first_tick.
Proof. vm_compute. reflexivity. Qed.


(** The tail handed to the renderer. After an iteration in which the snake
    neither grew nor bit itself it is the segment the snake has just left:
    put behind the new list it gives the old list with the new head in
    front. After growth or a bite there is none. *)
Theorem erased_tail_is_the_dropped_segment (events : list Event) (rnd : nat)
    (g : Game) (t : Tick) :
  loop_body events rnd g = Some t ->
  (will_grow t = false -> collided t = false ->
   exists tail new_head,
     last_tail_position (after t) = Some tail /\
     positions (snake (after t)) ++ [tail] = new_head :: positions (snake g)) /\
  (will_grow t = true \/ collided t = true ->
   last_tail_position (after t) = None).
Proof.
  intros B. unfold loop_body in B.
  destruct (loop_body_with_books _ _ _ _ B) as (moved & M & _ & T).
  destruct (loop_body_with_inv _ _ _ _ B)
    as (h & rest & moved' & head_pos & P & _ & M' & _ & _ & _ & S & _).
  rewrite M in M'. injection M' as <-.
  destruct (steered_frame events g) as (FP & _).
  split.
  - intros W C. rewrite W, C in T. cbn [orb] in T.
    rewrite W in M. rewrite C in S.
    destruct (move_shape _ _ _ h rest P M) as (tp & _ & _ & Tn & PM & _).
    rewrite (Tn eq_refl) in PM. rewrite FP in P.
    exists (last (positions (snake g)) (0, 0)),
           (advance h (direction (steered events g))).
    split; [exact T |]. rewrite S, PM, P. rewrite <- app_comm_cons.
    f_equal. symmetry. apply app_removelast_last. discriminate.
  - intros [W | C]; rewrite T.
    + rewrite W. reflexivity.
    + rewrite C, orb_true_r. reflexivity.
Qed.

Lemma erased_tail_is_the_dropped_segment_witness :
  exists t,
    loop_body [] 0 (after first_tick) = Some t /\
    will_grow t = false /\ collided t = false /\
    exists tail new_head,
      last_tail_position (after t) = Some tail /\
      positions (snake (after t)) ++ [tail]
      = new_head :: positions (snake (after first_tick)).
Proof.
  destruct (loop_body [] 0 (after first_tick)) as [t |] eqn:B;
    [| discriminate B].
  assert (W : will_grow t = false) by (injection B as <-; reflexivity).
  assert (C : collided t = false) by (injection B as <-; reflexivity).
  exists t. split; [reflexivity | split; [exact W | split; [exact C |]]].
  exact (proj1 (erased_tail_is_the_dropped_segment [] 0%nat
                  (after first_tick) t B) W C).
Defined.

Lemma reachable_best_length (g : Game) :
  reachable g -> length (snake g) <= best_length g.
Proof.
  induction 1 as [rnd g I | g events rnd t R IH Run B].
  - unfold main_init in I.
    destruct (Apple_init rnd (positions Snake_init)); [| discriminate I].
    injection I as <-. cbn. lia.
  - unfold loop_body in B.
    destruct (loop_body_with_books _ _ _ _ B) as (moved & M & Best & _).
    destruct (loop_body_with_inv _ _ _ _ B)
      as (h & rest & moved' & head_pos & P & _ & M' & _ & _ & _ & S & _).
    rewrite M in M'. injection M' as <-.
    destruct (reachable_snake_ok g R) as [L NE].
    destruct (steered_frame events g) as (FP & FL).
    assert (L1 : length_ok (steered events g))
      by (unfold length_ok; rewrite FP, FL; exact L).
    destruct (move_cases _ h rest L1 P)
      as ((s1 & M1 & _ & _ & _ & _) & (s2 & M2 & L2 & _)).
    assert (One : 1 <= length (snake g)).
    { rewrite L. destruct (positions (snake g)); [congruence |].
      simpl List.length. lia. }
    rewrite S, Best. destruct (collided t); cbn [length set_length].
    + destruct (will_grow t); [destruct (length moved >? best_length g) eqn:Q |];
        lia.
    + destruct (will_grow t).
      * destruct (length moved >? best_length g) eqn:Q; [lia |].
        rewrite Z.gtb_ltb in Q. apply Z.ltb_ge in Q. exact Q.
      * rewrite M2 in M. injection M as <-. rewrite L2, FL. exact IH.
Qed.

(** The record is never below the current length at the head of an
    iteration, and an iteration never lowers it. *)
Theorem record_never_falls (g : Game) :
  reachable g ->
  length (snake g) <= best_length g /\
  forall events rnd t, loop_body events rnd g = Some t ->
                       best_length g <= best_length (after t).
Proof.
  intros R. split; [exact (reachable_best_length g R) |].
  intros events rnd t B. unfold loop_body in B.
  destruct (loop_body_with_books _ _ _ _ B) as (moved & _ & Best & _).
  rewrite Best. destruct (will_grow t); [| lia].
  destruct (length moved >? best_length g) eqn:Q; [| lia].
  rewrite Z.gtb_ltb in Q. apply Z.ltb_lt in Q. lia.
Qed.

Lemma record_never_falls_witness :
  reachable spiral_start /\
  length (snake spiral_start) <= best_length spiral_start /\
  best_length spiral_start <= best_length (after first_tick).
Proof.
  split; [exact spiral_start_reachable |].
  destruct (record_never_falls spiral_start spiral_start_reachable) as [A B].
  split; [exact A |]. exact (B [] 0%nat first_tick first_tick_run).
Defined.

Lemma reachable_apple_on_grid (g : Game) :
  reachable g -> In (apple_position (apple g)) ALL_CELLS.
Proof.
  induction 1 as [rnd g I | g events rnd t R IH Run B].
  - unfold main_init, Apple_init in I.
    destruct (randomize_position_total rnd None
                (mkApple CENTER_POSITION (positions Snake_init)))
      as (a' & E & _ & G & _).
    rewrite E in I. injection I as <-. exact G.
  - unfold loop_body in B.
    destruct (loop_body_with_inv _ _ _ _ B)
      as (h & rest & moved & head_pos & _ & _ & _ & A & _).
    destruct (will_grow t).
    + destruct (randomize_position_total rnd (Some (positions moved)) (apple g))
        as (a' & E & _ & G & _).
      rewrite E in A. injection A as <-. exact G.
    + rewrite A. exact IH.
Qed.

(** At the head of every iteration the apple lies on a cell of the grid. *)
Theorem apple_is_on_the_grid (g : Game) :
  reachable g -> In (apple_position (apple g)) ALL_CELLS.
Proof.
  intros R. exact (reachable_apple_on_grid g R).
Qed.

Lemma apple_is_on_the_grid_witness :
  reachable spiral_start /\
  In (apple_position (apple spiral_start)) ALL_CELLS.
Proof.
  split; [exact spiral_start_reachable |].
  exact (apple_is_on_the_grid spiral_start spiral_start_reachable).
Defined.

(** When the snake eats an apple that was not on its body, its new head is
    on the apple's cell, all old segments are kept behind it, [length] is one
    larger, and the new apple is placed on a cell of the grid, with the grown
    snake as the occupied list. *)
Theorem eating_grows_the_snake (events : list Event) (rnd : nat) (g : Game)
    (t : Tick) :
  reachable g -> apple_off_snake g ->
  loop_body events rnd g = Some t -> will_grow t = true ->
  positions (snake (after t)) = apple_position (apple g) :: positions (snake g) /\
  length (snake (after t)) = length (snake g) + 1 /\
  In (apple_position (apple (after t))) ALL_CELLS /\
  occupied_positions (apple (after t)) = positions (snake (after t)).
Proof.
  intros R Off B W. unfold loop_body in B.
  pose proof (grown_head_is_fresh _ _ _ _ Off B W) as C.
  destruct (loop_body_with_inv _ _ _ _ B)
    as (h & rest & moved & head_pos & P & G & M & A & _ & _ & S & _).
  rewrite W in G, M, A. rewrite C in S. symmetry in G.
  apply cell_eqb_eq in G.
  destruct (reachable_snake_ok g R) as [L _].
  destruct (steered_frame events g) as (FP & FL).
  assert (L1 : length_ok (steered events g))
    by (unfold length_ok; rewrite FP, FL; exact L).
  destruct (move_cases _ h rest L1 P) as ((s1 & M1 & P1 & Len1 & _) & _).
  rewrite M1 in M. injection M as <-.
  destruct (randomize_position_total rnd (Some (positions s1)) (apple g))
    as (a' & E & O & I & _).
  rewrite E in A. injection A as <-.
  rewrite S, P1, Len1, FP, FL. cbn [occupied_of] in O.
  assert (N : (fst h + fst (direction (steered events g))) mod SCREEN_WIDTH
              = fst (apple_position (apple g)) /\
              (snd h + snd (direction (steered events g))) mod SCREEN_HEIGHT
              = snd (apple_position (apple g))).
  { rewrite <- G. destruct h; split; reflexivity. }
  destruct N as [-> ->]. rewrite <- surjective_pairing.
  repeat split; try assumption.
  rewrite O, P1, FP.
  rewrite <- G. destruct h; reflexivity.
Qed.

Lemma spiral_start_apple_off : apple_off_snake spiral_start.
Proof.
  unfold apple_off_snake. simpl. intros [E | []]. discriminate E.
Qed.

Lemma eating_grows_the_snake_witness :
  reachable spiral_start /\ apple_off_snake spiral_start /\
  loop_body [] 0 spiral_start = Some first_tick /\
  will_grow first_tick = true /\
  positions (snake (after first_tick))
  = apple_position (apple spiral_start) :: positions (snake spiral_start) /\
  length (snake (after first_tick)) = length (snake spiral_start) + 1.
Proof.
  assert (W : will_grow first_tick = true) by reflexivity.
  split; [exact spiral_start_reachable |].
  split; [exact spiral_start_apple_off |].
  split; [exact first_tick_run | split; [exact W |]].
  destruct (eating_grows_the_snake [] 0%nat spiral_start first_tick
              spiral_start_reachable spiral_start_apple_off first_tick_run W)
    as (A & B & _).
  split; [exact A | exact B].
Defined.

Lemma apple_off_snake_kept_witness :
  apple_off_snake spiral_start /\
  loop_body [] 0 spiral_start = Some first_tick /\
  free_cells (positions (snake (after first_tick))) <> [] /\
  apple_off_snake (after first_tick).
Proof.
  assert (Room : free_cells (positions (snake (after first_tick))) <> []).
  { assert (I : In (0, 0) (free_cells (positions (snake (after first_tick))))).
    { apply In_free_cells. split; [apply In_ALL_CELLS; reflexivity |].
      simpl. intros [E | [E | []]]; discriminate E. }
    intros Z. rewrite Z in I. destruct I. }
  split; [exact spiral_start_apple_off |].
  split; [exact first_tick_run | split; [exact Room |]].
  exact (apple_off_snake_kept [] 0%nat spiral_start first_tick
           spiral_start_apple_off first_tick_run Room).
Defined.

(** The branch of [randomize_position] for a field without a free cell is
    live code: the main loop can reach a state in which the snake has 768
    segments and covers every cell of the grid. *)
Theorem field_can_be_filled :
  exists g, reachable g /\
            length (snake g) = FIELD_WIDTH * FIELD_HEIGHT /\
            free_cells (positions (snake g)) = [] /\
            forall c, In c ALL_CELLS -> In c (positions (snake g)).
Proof.
  assert (C : match run_plan spiral_plan spiral_start with
              | Some g =>
                  (length (snake g) =? FIELD_WIDTH * FIELD_HEIGHT) &&
                  match free_cells (positions (snake g)) with
                  | [] => true
                  | _ :: _ => false
                  end
              | None => false
              end = true) by (vm_compute; reflexivity).
  destruct (run_plan spiral_plan spiral_start) as [g |] eqn:E;
    [| discriminate C].
  apply andb_true_iff in C. destruct C as [C1 C2].
  apply Z.eqb_eq in C1.
  assert (F : free_cells (positions (snake g)) = [])
    by (destruct (free_cells (positions (snake g))); [reflexivity | discriminate C2]).
  exists g. split; [| split; [exact C1 | split; [exact F |]]].
  - exact (run_plan_reachable spiral_plan spiral_start g E
             spiral_start_reachable).
  - intros c I.
    destruct (cell_mem c (positions (snake g))) eqn:Q;
      [apply cell_mem_In; exact Q |].
    apply cell_mem_false in Q.
    assert (I' : In c (free_cells (positions (snake g))))
      by (apply In_free_cells; auto).
    rewrite F in I'. destruct I'.
Qed.

(** ** The picture *)

Lemma in_cell_unfold (c : Cell) (pixel : Z * Z) (screen : Surface)
    (color : Color) :
  draw_cell screen c color pixel =
  if in_cell c pixel then color else screen pixel.
Proof. reflexivity. Qed.

Lemma draw_segments (l : list Cell) (screen : Surface) (pixel : Z * Z) :
  fold_left (fun scr position => draw_cell scr position GREEN) l screen pixel =
  if existsb (fun c => in_cell c pixel) l then GREEN else screen pixel.
Proof.
  revert screen. induction l as [| c l IH]; intros screen; simpl;
    [reflexivity |].
  rewrite IH, in_cell_unfold.
  destruct (in_cell c pixel), (existsb (fun c0 => in_cell c0 pixel) l);
    reflexivity.
Qed.

(** What the player sees after an iteration: a pixel is red inside the
    apple's square, green inside the square of a segment that the apple does
    not cover, and black everywhere else; the tail handed to [Snake.draw]
    makes no difference to the picture. *)
Theorem render_shows_the_game (g : Game) (pixel : Z * Z) :
  render g pixel =
    if in_cell (apple_position (apple g)) pixel then RED
    else if existsb (fun c => in_cell c pixel) (positions (snake g)) then GREEN
    else BLACK.
Proof.
  unfold render, Apple_draw, Snake_draw. rewrite in_cell_unfold.
  destruct (in_cell (apple_position (apple g)) pixel); [reflexivity |].
  rewrite draw_segments.
  destruct (existsb _ _); [reflexivity |].
  destruct (last_tail_position g) as [tail |]; [| reflexivity].
  rewrite in_cell_unfold. destruct (in_cell tail pixel); reflexivity.
Qed.

(** ** The threshold of the collision check *)

Lemma grid_cell_in_field (c : Cell) : In c ALL_CELLS -> in_field c.
Proof.
  intros I. apply In_ALL_CELLS in I. unfold is_grid_cell in I.
  unfold in_field. destruct c as [x y]. cbn [fst snd] in *.
  rewrite !andb_true_iff, !Z.leb_le, !Z.ltb_lt in I. tauto.
Qed.

(** The new head of a snake of the main loop is none of the at most two
    segments that follow it when the moved snake is shorter than four. *)
Lemma new_head_off_short_tail (events : list Event) (g : Game) (h : Cell)
    (rest tp : list Cell) :
  reachable g -> positions (snake g) = h :: rest ->
  tp = h :: rest \/ tp = removelast (h :: rest) ->
  (List.length tp <= 2)%nat ->
  ~ In (advance h (direction (steered events g))) tp.
Proof.
  intros R P TP Len Inh.
  destruct (reachable_body_ok g R) as (_ & GR & NK & D).
  destruct (steered_heading events g R) as (SD & NR).
  rewrite P in GR. rewrite Forall_forall in GR.
  assert (Fh : in_field h)
    by (apply grid_cell_in_field; apply GR; left; reflexivity).
  destruct (short_prefix h rest tp _ TP Len Inh) as [E | (h2 & r & -> & E)].
  - exact (advance_moves h _ Fh SD E).
  - unfold neck_ok in NK. rewrite P in NK.
    assert (Fh2 : in_field h2)
      by (apply grid_cell_in_field; apply GR; right; left; reflexivity).
    apply (advance_twice_moves h2 (direction (snake g))
             (direction (steered events g)) Fh2 D SD NR).
    rewrite <- NK. exact E.
Qed.

(** In the main loop the shortcut of [check_self_collision] for snakes
    shorter than four hides no bite: the check of an iteration fires exactly
    when the head of the moved snake lies on one of its other segments. *)
Theorem threshold_hides_no_bite (events : list Event) (rnd : nat) (g : Game)
    (t : Tick) :
  reachable g -> loop_body events rnd g = Some t ->
  exists moved head body,
    move (will_grow t) (steered events g) = Some moved /\
    positions moved = head :: body /\
    (collided t = true <-> In head body).
Proof.
  intros R B. unfold loop_body in B.
  destruct (loop_body_with_inv _ _ _ _ B)
    as (h & rest & moved & head_pos & P & _ & M & _ & K & _).
  destruct (reachable_snake_ok g R) as [L _].
  destruct (steered_frame events g) as (FP & FL).
  assert (L1 : length_ok (steered events g))
    by (unfold length_ok; rewrite FP, FL; exact L).
  destruct (move_shape _ _ _ h rest P M) as (tp & TP & _ & _ & PM & _ & LM).
  specialize (LM L1).
  exists moved, (advance h (direction (steered events g))), tp.
  split; [exact M | split; [exact PM |]].
  unfold check_self_collision, get_head_position in K. rewrite PM in K.
  cbn [obind tl] in K.
  destruct (length moved <? 4) eqn:Q.
  - injection K as <-. split; [discriminate |]. intros Inh. exfalso.
    apply Z.ltb_lt in Q. unfold length_ok in LM. rewrite PM in LM.
    cbn [List.length] in LM.
    assert (Len : (List.length tp <= 2)%nat) by lia.
    rewrite FP in P.
    exact (new_head_off_short_tail events g h rest tp R P TP Len Inh).
  - injection K as <-. apply cell_mem_In.
Qed.

Lemma threshold_hides_no_bite_witness :
  reachable spiral_start /\
  loop_body [] 0 spiral_start = Some first_tick /\
  exists moved head body,
    move (will_grow first_tick) (steered [] spiral_start) = Some moved /\
    positions moved = head :: body /\
    (collided first_tick = true <-> In head body).
Proof.
  split; [exact spiral_start_reachable | split; [exact first_tick_run |]].
  exact (threshold_hides_no_bite [] 0%nat spiral_start first_tick
           spiral_start_reachable first_tick_run).
Defined.

(** The snake never stands still: after every iteration its head is the old
    head moved one cell in the heading of that iteration, and that is a
    different cell. *)
Theorem snake_always_moves (events : list Event) (rnd : nat) (g : Game)
    (t : Tick) :
  reachable g -> loop_body events rnd g = Some t ->
  exists old_head,
    get_head_position (snake g) = Some old_head /\
    get_head_position (snake (after t))
    = Some (advance old_head (direction (snake (after t)))) /\
    advance old_head (direction (snake (after t))) <> old_head.
Proof.
  intros R B. unfold loop_body in B.
  destruct (loop_body_with_inv _ _ _ _ B)
    as (h & rest & moved & head_pos & P & _ & M & _ & _ & HP & S & _).
  destruct (steered_frame events g) as (FP & _).
  destruct (steered_heading events g R) as (SD & _).
  destruct (move_shape _ _ _ h rest P M) as (tp & _ & _ & _ & PM & DM & _).
  destruct (reachable_body_ok g R) as (_ & GR & _).
  rewrite FP in P. rewrite P in GR. rewrite Forall_forall in GR.
  assert (Fh : in_field h)
    by (apply grid_cell_in_field; apply GR; left; reflexivity).
  assert (HPn : head_pos = advance h (direction (steered events g))).
  { unfold get_head_position in HP. rewrite PM in HP.
    injection HP as <-. reflexivity. }
  assert (DA : direction (snake (after t)) = direction (steered events g)).
  { rewrite S. destruct (collided t); cbn; exact DM. }
  exists h. rewrite DA. split; [| split].
  - unfold get_head_position. rewrite P. reflexivity.
  - rewrite S. unfold get_head_position.
    destruct (collided t); cbn [positions set_positions set_length];
      [rewrite HPn | rewrite PM]; reflexivity.
  - exact (advance_moves h _ Fh SD).
Qed.

Lemma snake_always_moves_witness :
  reachable spiral_start /\
  loop_body [] 0 spiral_start = Some first_tick /\
  get_head_position (snake (after first_tick)) = Some (340, 240).
Proof.
  split; [exact spiral_start_reachable | split; [exact first_tick_run |]].
  destruct (snake_always_moves [] 0%nat spiral_start first_tick
              spiral_start_reachable first_tick_run)
    as (old_head & H0 & H1 & _).
  injection H0 as <-. exact H1.
Defined.

(** [randomize_position] remembers the list it was given: a later call
    without an argument works with that list again, so it also avoids its
    cells as long as one cell of the grid is free. *)
Theorem randomize_position_remembers (rnd1 rnd2 : nat) (occupied : list Cell)
    (a a1 : Apple) :
  randomize_position rnd1 (Some occupied) a = Some a1 ->
  occupied_positions a1 = occupied /\
  randomize_position rnd2 None a1 = randomize_position rnd2 (Some occupied) a1 /\
  exists a2, randomize_position rnd2 None a1 = Some a2 /\
             occupied_positions a2 = occupied /\
             (free_cells occupied <> [] ->
              ~ In (apple_position a2) occupied).
Proof.
  intros E.
  destruct (randomize_position_total rnd1 (Some occupied) a)
    as (a' & E' & O & _).
  rewrite E in E'. injection E' as <-. cbn [occupied_of] in O.
  split; [exact O | split].
  - unfold randomize_position. cbn [occupied_of]. rewrite O. reflexivity.
  - destruct (randomize_position_total rnd2 None a1) as (a2 & E2 & O2 & _ & F).
    cbn [occupied_of] in O2, F. rewrite O in O2, F.
    exists a2. repeat split; assumption.
Qed.

Lemma randomize_position_remembers_witness :
  exists a1,
    randomize_position 0 (Some [CENTER_POSITION]) (mkApple (0, 0) []) = Some a1 /\
    occupied_positions a1 = [CENTER_POSITION] /\
    randomize_position 9 None a1
    = randomize_position 9 (Some [CENTER_POSITION]) a1.
Proof.
  destruct (randomize_position_total 0 (Some [CENTER_POSITION])
              (mkApple (0, 0) [])) as (a1 & E & _).
  exists a1. split; [exact E |].
  destruct (randomize_position_remembers 0 9 [CENTER_POSITION]
              (mkApple (0, 0) []) a1 E) as (O & Q & _).
  split; [exact O | exact Q].
Defined.
